(** * Zettlr autocorrect commands: a shallow embedding

    The three CodeMirror commands of the autocorrect plugin
    ([handleReplacement], [handleBackspace], [handleQuote]) together with the
    helper [posInProtectedNode], embedded as pure functions on an explicit
    editor state.

    Conventions.
    - A JavaScript string is the list of its UTF-16 code units; every
      character the plugin names (the quotes, the separator U+2026, the
      dashes U+2013 and U+2014) is one code unit.
    - Document positions are integers ([Z]): the source computes
      [range.from - 1] and [range.from - maxKeyLength], which may be negative.
    - The host editor is consumed through four read-only queries
      ([sliceDoc], [lineAt], the syntax tree, the selection) and through
      [dispatch] / [changeByRange].  The queries are modelled on a flat
      document whose line break is the single code unit 10.
    - A handler returns its boolean result together with the transaction it
      dispatched, if any.  [handleQuote] may raise a [TypeError] (a missing
      quote segment), which is the [None] of an option. *)

From Stdlib Require Import ZArith NArith List Sorted Permutation Lia Bool String Ascii.
Import ListNotations.
Open Scope Z_scope.

(** ** JavaScript strings and arrays *)

Module JS.

Definition jsstring := list N.

(** A string literal made of ASCII characters only. *)
Definition lit (s : string) : jsstring :=
  map N_of_ascii (list_ascii_of_string s).

(** [s.length] *)
Definition len (s : jsstring) : Z := Z.of_nat (List.length s).

(** [a === b] on strings *)
Fixpoint eqb (a b : jsstring) : bool :=
  match a, b with
  | [], [] => true
  | x :: a', y :: b' => N.eqb x y && eqb a' b'
  | _, _ => false
  end.

(** [s.startsWith(p)] *)
Fixpoint startsWith (s p : jsstring) : bool :=
  match p, s with
  | [], _ => true
  | y :: p', x :: s' => N.eqb x y && startsWith s' p'
  | _ :: _, [] => false
  end.

(** [s.endsWith(k)]: the last [k.length] code units of [s] are [k]. *)
Definition endsWith (s k : jsstring) : bool :=
  (List.length k <=? List.length s)%nat
  && eqb (skipn (List.length s - List.length k) s) k.

(** [s.includes(sub)] on strings: [sub] occurs somewhere in [s]. *)
Fixpoint includes (s sub : jsstring) : bool :=
  startsWith s sub
  || match s with
     | [] => false
     | _ :: s' => includes s' sub
     end.

(** [arr.includes(x)] on an array of strings. *)
Definition arr_includes (arr : list jsstring) (x : jsstring) : bool :=
  existsb (fun y => eqb y x) arr.

(** [s.split(sep)] for a separator of one code unit.  The result always has
    at least one segment. *)
Fixpoint split (sep : N) (s : jsstring) : list jsstring :=
  match s with
  | [] => [[]]
  | c :: s' =>
      if N.eqb c sep then [] :: split sep s'
      else match split sep s' with
           | seg :: segs => (c :: seg) :: segs
           | [] => [[c]]
           end
  end.

(** [arr.sort(cmp)].  ECMAScript requires the sort to be stable, and a stable
    sort by a consistent comparator has one result; it is computed here by
    insertion.  [cmp a b > 0] means that [b] goes before [a]. *)
Section Sort.
Context {A : Type} (cmp : A -> A -> Z).

Fixpoint insertBy (x : A) (l : list A) : list A :=
  match l with
  | [] => [x]
  | y :: l' => if 0 <? cmp x y then y :: insertBy x l' else x :: y :: l'
  end.

Definition sort (l : list A) : list A := fold_right insertBy [] l.
End Sort.

End JS.

Import JS.

(** ** Data model *)

(** One entry of [autocorrect.replacements]. *)
Record Replacement := mkReplacement { key : jsstring; value : jsstring }.

Record MagicQuotes := mkMagicQuotes { primary : jsstring; secondary : jsstring }.

Record Autocorrect := mkAutocorrect {
  active : bool;
  replacements : list Replacement;
  magicQuotes : MagicQuotes
}.

(** A [SelectionRange]; only [from], [to] and [empty] are read. *)
Record SelectionRange := mkRange { from : Z; to : Z }.

Definition empty (r : SelectionRange) : bool := from r =? to r.

(** [EditorSelection.cursor(pos)] and [EditorSelection.range(anchor, head)] *)
Definition cursor (pos : Z) : SelectionRange := mkRange pos pos.
Definition range (anchor head : Z) : SelectionRange :=
  mkRange (Z.min anchor head) (Z.max anchor head).

(** A [ChangeSpec] [{ from, to, insert }]. *)
Record ChangeSpec := mkChange { cfrom : Z; cto : Z; insert : jsstring }.

(** The editor state a command reads: the document, the selection, the
    [autocorrect] part of the configuration field, and the name of the
    syntax node that [syntaxTree(state).resolve(pos, 0)] finds at a
    position. *)
Record EditorState := mkState {
  doc : jsstring;
  ranges : list SelectionRange;
  autocorrect : Autocorrect;
  nodeName : Z -> string
}.

(** ** Host queries *)

(** [text.sliceString(from, to)]: the text between two positions, both
    clipped to the document. *)
Definition sliceString (d : jsstring) (from to : Z) : jsstring :=
  let n := len d in
  let from' := Z.max 0 (Z.min n from) in
  let to' := Z.max from' (Z.min n to) in
  firstn (Z.to_nat (to' - from')) (skipn (Z.to_nat from') d).

(** [state.sliceDoc(from, to)] *)
Definition sliceDoc (st : EditorState) (from to : Z) : jsstring :=
  sliceString (doc st) from to.

Definition lineBreak : N := 10%N.

Fixpoint takeWhile {A} (p : A -> bool) (l : list A) : list A :=
  match l with
  | [] => []
  | x :: l' => if p x then x :: takeWhile p l' else []
  end.

(** [state.doc.lineAt(pos).text]: the text of the line around [pos], without
    its line break.  A position on a line break belongs to the line that the
    break ends. *)
Definition lineAt_text (st : EditorState) (pos : Z) : jsstring :=
  let notBreak := fun c => negb (N.eqb c lineBreak) in
  let before := firstn (Z.to_nat pos) (doc st) in
  let after := skipn (Z.to_nat pos) (doc st) in
  rev (takeWhile notBreak (rev before)) ++ takeWhile notBreak after.

(** ** The plugin *)

(** [' ([{-' + en dash + em dash]: the characters that can be directly
    followed by a starting magic quote. *)
Definition startChars : jsstring := lit " ([{-" ++ [8211%N; 8212%N].

(** The separator of a magic-quote pair, U+2026. *)
Definition ellipsis : N := 8230%N.

Definition dquote : jsstring := [34%N].
Definition squote : jsstring := [39%N].

Definition protectedNodes : list string :=
  [ "InlineCode"; "CommentBlock"; "FencedCode"; "CodeText"; "HorizontalRule" ]%string.

(** [posInProtectedNode(state, pos)].  The [console.log] of the node name is
    not modelled. *)
Definition posInProtectedNode (st : EditorState) (pos : Z) : bool :=
  existsb (String.eqb (nodeName st pos)) protectedNodes.

(** *** handleReplacement *)

(** The inner loop over the sorted rules, for one cursor: [changes] as it is
    after the loop.  Both branches of a matching rule leave the loop. *)
Fixpoint scanRules (st : EditorState) (r : SelectionRange) (slice : jsstring)
    (rules : list Replacement) (changes : list ChangeSpec) : list ChangeSpec :=
  match rules with
  | [] => changes
  | rule :: rules' =>
      if endsWith slice (key rule) then
        let startOfReplacement := from r - len (key rule) in
        if posInProtectedNode st startOfReplacement then changes
        else changes ++ [ mkChange startOfReplacement (from r) (value rule) ]
      else scanRules st r slice rules' changes
  end.

(** The body of the loop over the selection ranges: [changes] as it is after
    one range. *)
Definition replacementForRange (st : EditorState) (rules : list Replacement)
    (maxKeyLength : Z) (changes : list ChangeSpec) (r : SelectionRange)
    : list ChangeSpec :=
  if negb (empty r) then changes
  else if posInProtectedNode st (from r) then changes
  else if arr_includes [ lit "---"; lit "..." ] (lineAt_text st (from r)) then changes
  else
    let from' := Z.max (from r - maxKeyLength) 0 in
    let slice := sliceDoc st from' (from r) in
    scanRules st r slice rules changes.

(** The comparator of the sort. *)
Definition byKeyLengthDesc (a b : Replacement) : Z := len (key b) - len (key a).

(** The sorted copy of the table. *)
Definition sortedReplacements (st : EditorState) : list Replacement :=
  sort byKeyLengthDesc (replacements (autocorrect st)).

(** [replacements[0].key.length]; the table is not empty where this is read. *)
Definition maxKeyLength (st : EditorState) : Z :=
  match sortedReplacements st with
  | rule :: _ => len (key rule)
  | [] => 0
  end.

(** [handleReplacement(view)]: the result and the dispatched changes. *)
Definition handleReplacement (st : EditorState) : bool * option (list ChangeSpec) :=
  let ac := autocorrect st in
  if negb (active ac) || (List.length (replacements ac) =? 0)%nat then (false, None)
  else
    let changes :=
      fold_left (replacementForRange st (sortedReplacements st) (maxKeyLength st))
                (ranges st) [] in
    (false, Some changes).

(** *** handleBackspace *)

Definition primaryMagicQuotes (st : EditorState) : list jsstring :=
  split ellipsis (primary (magicQuotes (autocorrect st))).

Definition secondaryMagicQuotes (st : EditorState) : list jsstring :=
  split ellipsis (secondary (magicQuotes (autocorrect st))).

(** The body of the loop over the selection ranges: [hasHandled] and
    [changes] as they are after one range. *)
Definition backspaceForRange (st : EditorState) (acc : bool * list ChangeSpec)
    (r : SelectionRange) : bool * list ChangeSpec :=
  let (hasHandled, changes) := acc in
  if from r =? 0 then (hasHandled, changes)
  else
    let slice := sliceDoc st (from r - 1) (from r) in
    if arr_includes (primaryMagicQuotes st) slice && negb (eqb slice dquote) then
      (true, changes ++ [ mkChange (from r - 1) (from r) dquote ])
    else if arr_includes (secondaryMagicQuotes st) slice && negb (eqb slice squote) then
      (true, changes ++ [ mkChange (from r - 1) (from r) squote ])
    else (hasHandled, changes).

(** [handleBackspace(view)]: [hasHandled] and the dispatched changes. *)
Definition handleBackspace (st : EditorState) : bool * option (list ChangeSpec) :=
  if negb (active (autocorrect st)) then (false, None)
  else
    let (hasHandled, changes) :=
      fold_left (backspaceForRange st) (ranges st) (false, []) in
    (hasHandled, Some changes).

(** *** handleQuote *)

(** What the callback of [changeByRange] returns for one range. *)
Record RangeUpdate := mkUpdate { newRange : SelectionRange; changes : ChangeSpec }.

(** Reading [quotes[i]]; a missing element is [undefined], and the source
    takes [.length] of it at once, which raises a [TypeError]. *)
Definition segment (quotes : list jsstring) (i : nat) : option jsstring :=
  nth_error quotes i.

(** The callback passed to [changeByRange]. *)
Definition quoteForRange (st : EditorState) (quotes : list jsstring)
    (r : SelectionRange) : option RangeUpdate :=
  if empty r then
    let charBefore := sliceDoc st (from r - 1) (from r) in
    match (if includes startChars charBefore then segment quotes 0 else segment quotes 1) with
    | Some ins => Some (mkUpdate (cursor (to r + len ins)) (mkChange (from r) (to r) ins))
    | None => None
    end
  else
    let text := sliceDoc st (from r) (to r) in
    match segment quotes 0, segment quotes 1 with
    | Some q0, Some q1 =>
        Some (mkUpdate (range (from r + len q0) (to r + len q1))
                       (mkChange (from r) (to r) (q0 ++ text ++ q1)))
    | _, _ => None
    end.

(** Running the callback over the ranges, in order, stopping at the first
    exception. *)
Fixpoint changeByRange (f : SelectionRange -> option RangeUpdate)
    (rs : list SelectionRange) : option (list RangeUpdate) :=
  match rs with
  | [] => Some []
  | r :: rs' =>
      match f r with
      | None => None
      | Some u =>
          match changeByRange f rs' with
          | None => None
          | Some us => Some (u :: us)
          end
      end
  end.

(** The local [quotes]: the primary pair when the key is the double quote,
    the secondary pair otherwise. *)
Definition quotesFor (quote : jsstring) (st : EditorState) : list jsstring :=
  if eqb quote dquote then primaryMagicQuotes st else secondaryMagicQuotes st.

(** [handleQuote(quote)(view)]: [None] when an exception is raised, else the
    result and the per-range updates handed to [dispatch]. *)
Definition handleQuote (quote : jsstring) (st : EditorState)
    : option (bool * option (list RangeUpdate)) :=
  if negb (active (autocorrect st)) then Some (false, None)
  else
    let quotes := quotesFor quote st in
    match changeByRange (quoteForRange st quotes) (ranges st) with
    | None => None
    | Some us => Some (true, Some us)
    end.

(** ** Applying a transaction

    What the host does with the dispatched changes.  Every change of one
    transaction refers to the document before the transaction.  The host
    takes a list of changes in one pass when they are in ascending order,
    each beginning where the one before it ends or later, and all inside the
    document; this is the case modelled here.  A list of another kind (two
    changes at one place, a change that reaches back into an earlier one) is
    composed by the host change by change, each mapped through those before
    it; that composition is not modelled, and [applyChanges] and [dispatch]
    are [None] for such a list. *)

Definition applyChange (d : jsstring) (c : ChangeSpec) : jsstring :=
  firstn (Z.to_nat (cfrom c)) d ++ insert c ++ skipn (Z.to_nat (cto c)) d.

(** The changes are in ascending order from [pos] on, without overlap, in a
    document of [n] characters. *)
Fixpoint ascendingChanges (pos n : Z) (cs : list ChangeSpec) : bool :=
  match cs with
  | [] => true
  | c :: cs' =>
      (pos <=? cfrom c) && (cfrom c <=? cto c) && (cto c <=? n)
      && ascendingChanges (cto c) n cs'
  end.

(** Applying the last change first leaves the positions of the earlier
    changes as they are. *)
Definition applyLastFirst (d : jsstring) (cs : list ChangeSpec) : jsstring :=
  fold_right (fun c d' => applyChange d' c) d cs.

Definition applyChanges (d : jsstring) (cs : list ChangeSpec) : option jsstring :=
  if ascendingChanges 0 (len d) cs then Some (applyLastFirst d cs) else None.

(** How far one change moves a position ([ChangeDesc.mapPos]); [assoc] says
    to which side a position sticks when text is inserted at it. *)
Definition mapDelta (c : ChangeSpec) (assoc pos : Z) : Z :=
  let n := cto c - cfrom c in
  let ins := len (insert c) in
  if pos <? cfrom c then 0
  else if cto c <? pos then ins - n
  else if pos =? cfrom c then (if (n =? 0) && (0 <=? assoc) then ins else 0)
  else if pos =? cto c then ins - n
  else if assoc <? 0 then cfrom c - pos
  else cfrom c + ins - pos.

(** A position mapped through ascending changes: the changes before it move
    it, the changes behind it do not. *)
Definition mapPos (cs : list ChangeSpec) (assoc pos : Z) : Z :=
  fold_left (fun p c => p + mapDelta c assoc pos) cs pos.

(** [SelectionRange.map]: a cursor sticks to the left, a selection shrinks
    towards its inside. *)
Definition mapRange (cs : list ChangeSpec) (r : SelectionRange) : SelectionRange :=
  if empty r then cursor (mapPos cs (-1) (from r))
  else mkRange (mapPos cs 1 (from r)) (mapPos cs (-1) (to r)).

(** The state after [view.dispatch({ changes })] for ascending changes: the
    new document, the selection mapped through the changes, the same
    configuration, and the syntax tree [tree'] of the new document. *)
Definition dispatch (st : EditorState) (cs : list ChangeSpec) (tree' : Z -> string)
    : option EditorState :=
  match applyChanges (doc st) cs with
  | Some d' =>
      Some (mkState d' (map (mapRange cs) (ranges st)) (autocorrect st) tree')
  | None => None
  end.

(** Two changes do not overlap: one ends where or before the other begins. *)
Definition disjointChanges (a b : ChangeSpec) : Prop :=
  cto a <= cfrom b \/ cto b <= cfrom a.

(** ** Vocabulary of the statements *)

(** The changes one range pushes in [handleReplacement]. *)
Definition replacementEdits (st : EditorState) (r : SelectionRange) : list ChangeSpec :=
  replacementForRange st (sortedReplacements st) (maxKeyLength st) [] r.

Definition klen (r : Replacement) : Z := len (key r).

(** Descending key length. *)
Definition descending (l : list Replacement) : Prop :=
  StronglySorted (fun a b => klen b <= klen a) l.

(** The document text that ends at a position. *)
Definition textBefore (st : EditorState) (pos : Z) : jsstring := sliceDoc st 0 pos.

(** The key of a rule is a suffix of the document text ending at [pos]. *)
Definition matchesAt (st : EditorState) (pos : Z) (rule : Replacement) : bool :=
  endsWith (textBefore st pos) (key rule).

(** [r], found in the table between [l1] and [l2], is the longest rule that
    matches at [pos]; among equally long matches it is the first of the
    table. *)
Definition longestMatch (st : EditorState) (pos : Z)
    (l1 : list Replacement) (r : Replacement) (l2 : list Replacement) : Prop :=
  replacements (autocorrect st) = l1 ++ r :: l2
  /\ matchesAt st pos r = true
  /\ (forall x, In x l1 -> matchesAt st pos x = true -> klen x < klen r)
  /\ (forall x, In x l2 -> matchesAt st pos x = true -> klen x <= klen r).

(** The three tests a range passes before its rules are scanned: it is a
    cursor, the cursor is not in a protected node, and its line is neither
    [---] nor [...]. *)
Definition scanned (st : EditorState) (c : SelectionRange) : bool :=
  empty c
  && negb (posInProtectedNode st (from c))
  && negb (arr_includes [ lit "---"; lit "..." ] (lineAt_text st (from c))).

(** The change that applies a rule at a cursor. *)
Definition ruleEdit (c : SelectionRange) (r : Replacement) : ChangeSpec :=
  mkChange (from c - klen r) (from c) (value r).

(** The one character before a range, as [handleBackspace] and
    [handleQuote] read it. *)
Definition charBefore (st : EditorState) (r : SelectionRange) : jsstring :=
  sliceDoc st (from r - 1) (from r).

(** [ch] is the start or the end glyph of a pair and differs from the plain
    quote of that pair. *)
Definition downgrades (start end_ plain ch : jsstring) : Prop :=
  (ch = start \/ ch = end_) /\ ch <> plain.

(** A directional quote: a segment of the primary pair other than the plain
    double quote, or a segment of the secondary pair other than the plain
    single quote. *)
Definition primaryGlyph (st : EditorState) (ch : jsstring) : bool :=
  arr_includes (primaryMagicQuotes st) ch && negb (eqb ch dquote).

Definition secondaryGlyph (st : EditorState) (ch : jsstring) : bool :=
  arr_includes (secondaryMagicQuotes st) ch && negb (eqb ch squote).

Definition directional (st : EditorState) (ch : jsstring) : bool :=
  primaryGlyph st ch || secondaryGlyph st ch.

(** The plain quote that stands for a directional one. *)
Definition plainFor (st : EditorState) (ch : jsstring) : jsstring :=
  if primaryGlyph st ch then dquote else squote.

(** One turn of the loop of [handleBackspace] from a fresh start: whether
    the range sets [hasHandled], and the changes it pushes. *)
Definition backspaceOne (st : EditorState) (r : SelectionRange)
    : bool * list ChangeSpec :=
  backspaceForRange st (false, []) r.

Definition backspaceEdits (st : EditorState) (r : SelectionRange) : list ChangeSpec :=
  snd (backspaceOne st r).

(** The state with another syntax tree. *)
Definition withTree (st : EditorState) (tree : Z -> string) : EditorState :=
  mkState (doc st) (ranges st) (autocorrect st) tree.

(** A range that [handleBackspace] handles, in the words of the pairs
    [ps .. pe] and [ss .. se]: it is not at the start of the document, and
    the character before it is a glyph of the primary pair and not the plain
    double quote, or a glyph of the secondary pair and not the plain single
    quote. *)
Definition handledRange (st : EditorState) (ps pe ss se : jsstring)
    (r : SelectionRange) : Prop :=
  from r <> 0
  /\ (downgrades ps pe dquote (charBefore st r)
      \/ downgrades ss se squote (charBefore st r)).

(** The character before a cursor, if there is one. *)
Definition precedingChar (st : EditorState) (c : SelectionRange) : option N :=
  if from c =? 0 then None else nth_error (doc st) (Z.to_nat (from c - 1)).

(** Space, [(], [[], [{], hyphen, en dash, em dash. *)
Definition opensQuote (ch : N) : bool :=
  existsb (N.eqb ch) [32; 40; 91; 123; 45; 8211; 8212]%N.

(** The glyph the quote key is to insert at a cursor. *)
Definition glyphAt (st : EditorState) (c : SelectionRange) (start end_ : jsstring)
    : jsstring :=
  match precedingChar st c with
  | None => start
  | Some ch => if opensQuote ch then start else end_
  end.

(** A change that replaces one character of a document of length [n] by one
    character. *)
Definition unitChange (n : Z) (c : ChangeSpec) : Prop :=
  0 <= cfrom c /\ cto c = cfrom c + 1 /\ cto c <= n /\ len (insert c) = 1.

(** [segs.join(sep)] for a separator of one code unit. *)
Fixpoint joinWith (sep : N) (segs : list jsstring) : jsstring :=
  match segs with
  | [] => []
  | [seg] => seg
  | seg :: segs' => seg ++ sep :: joinWith sep segs'
  end.

(** The configured string of the pair that a quote key uses. *)
Definition pairFor (quote : jsstring) (st : EditorState) : jsstring :=
  if eqb quote dquote then primary (magicQuotes (autocorrect st))
  else secondary (magicQuotes (autocorrect st)).

(** ** Concrete states used below *)

Definition plainText : Z -> string := fun _ => "Paragraph"%string.

(** The usual pairs: U+201C U+2026 U+201D and U+2018 U+2026 U+2019. *)
Definition curlyQuotes : MagicQuotes :=
  mkMagicQuotes [8220; ellipsis; 8221]%N [8216; ellipsis; 8217]%N.

(** Arrow rules: [">"] before ["->"] in the table. *)
Definition arrowRules : list Replacement :=
  [ mkReplacement (lit ">") (lit "}"); mkReplacement (lit "->") [8594%N] ].

(** A document ["->"] with the cursor at its end. *)
Definition arrowState : EditorState :=
  mkState (lit "->") [cursor 2] (mkAutocorrect true arrowRules curlyQuotes) plainText.

(** The same, with the first position inside inline code. *)
Definition arrowInCode : EditorState :=
  mkState (lit "->") [cursor 2] (mkAutocorrect true arrowRules curlyQuotes)
          (fun pos => if pos =? 0 then "InlineCode"%string else "Paragraph"%string).

(** One rule ["aa"], and a document ["aaaa"] with cursors at 2 and 3, or at
    2 and 4. *)
Definition doubleA : list Replacement := [ mkReplacement (lit "aa") (lit "b") ].

Definition closeCursors : EditorState :=
  mkState (lit "aaaa") [cursor 2; cursor 3] (mkAutocorrect true doubleA curlyQuotes)
          plainText.

Definition spacedCursors : EditorState :=
  mkState (lit "aaaa") [cursor 2; cursor 4] (mkAutocorrect true doubleA curlyQuotes)
          plainText.

(** A closing curly quote typed after ["say"], cursor behind it. *)
Definition afterCurly : EditorState :=
  mkState (lit "say" ++ [8221%N]) [cursor 4]
          (mkAutocorrect true [] curlyQuotes) plainText.

(** The word ["say"] selected behind an opening curly quote. *)
Definition selectedWord : EditorState :=
  mkState ([8220%N] ++ lit "say") [mkRange 1 4]
          (mkAutocorrect true [] curlyQuotes) plainText.

(** Autocorrect switched off. *)
Definition switchedOff : EditorState :=
  mkState (lit "say") [cursor 3] (mkAutocorrect false [] curlyQuotes) plainText.

(** Three cursors in ["a (b"]: at the start, behind the parenthesis, at the
    end. *)
Definition threeCursors : EditorState :=
  mkState (lit "a (b") [cursor 0; cursor 3; cursor 4]
          (mkAutocorrect true [] curlyQuotes) plainText.

(** Guillemets with a no-break space behind the opening one, so that the
    start glyph has two code units and the end glyph one; the whole of
    ["ab"] is selected. *)
Definition spacedGuillemets : MagicQuotes :=
  mkMagicQuotes [171; 160; ellipsis; 187]%N [8216; ellipsis; 8217]%N.

Definition wrapState : EditorState :=
  mkState (lit "ab") [mkRange 0 2] (mkAutocorrect true [] spacedGuillemets) plainText.

(** Inline code that ends in an opening curly quote, the cursor behind it;
    every position resolves to the inline code node. *)
Definition insideCode : EditorState :=
  mkState (lit "`a" ++ [8220%N]) [cursor 3] (mkAutocorrect true [] curlyQuotes)
          (fun _ => "InlineCode"%string).

(** Two cursors behind curly quotes and a third behind a letter. *)
Definition quotedWord : EditorState :=
  mkState ([8220%N] ++ lit "say" ++ [8221%N]) [cursor 1; cursor 3; cursor 5]
          (mkAutocorrect true [] curlyQuotes) plainText.

(** A table with keys of three lengths, and a document of two lines whose
    second line is a front-matter delimiter. *)
Definition mixedRules : list Replacement :=
  [ mkReplacement (lit "a") (lit "1"); mkReplacement (lit "bb") (lit "2");
    mkReplacement (lit "c") (lit "3"); mkReplacement (lit "dd") (lit "4");
    mkReplacement (lit "eee") (lit "5") ].

Definition delimiterLine : EditorState :=
  mkState (lit "a--" ++ [lineBreak] ++ lit "---") [cursor 3; cursor 7]
          (mkAutocorrect true [ mkReplacement (lit "--") [8211%N] ] curlyQuotes)
          plainText.

(** The copyright rule of the manual, typed at the end of a sentence. *)
Definition copyrightState : EditorState :=
  mkState (lit "x (c)") [cursor 5]
          (mkAutocorrect true [ mkReplacement (lit "(c)") [169%N] ] curlyQuotes)
          plainText.

(** Arrow rules and a text without an arrow. *)
Definition noArrow : EditorState :=
  mkState (lit "abc") [cursor 1; cursor 3] (mkAutocorrect true arrowRules curlyQuotes)
          plainText.

(** A primary pair written without the separator. *)
Definition noSeparator : EditorState :=
  mkState (lit "ab") [cursor 0; cursor 1]
          (mkAutocorrect true [] (mkMagicQuotes [8220%N] [8216; ellipsis; 8217]%N))
          plainText.

(** A cursor at the start of the second line. *)
Definition secondLine : EditorState :=
  mkState (lit "a" ++ [lineBreak]) [cursor 2] (mkAutocorrect true [] curlyQuotes)
          plainText.



(** Two selections that touch: the first ends, behind a closing quote, where
    the second begins. *)
Definition touchingSelections : EditorState :=
  mkState ([8220%N] ++ lit "a" ++ [8221%N] ++ lit "bc") [mkRange 1 3; mkRange 3 5]
          (mkAutocorrect true [] curlyQuotes) plainText.

(** * Properties *)

(** ** The model on examples *)

Example split_pair : split ellipsis (primary curlyQuotes) = [ [8220%N]; [8221%N] ].
Proof. reflexivity. Qed.

Example split_no_separator : split ellipsis dquote = [ dquote ].
Proof. reflexivity. Qed.

(** The sort is by descending key length and keeps the table order among
    keys of one length. *)
Example sort_mixedRules :
  map value (sort byKeyLengthDesc mixedRules)
    = [ lit "5"; lit "2"; lit "4"; lit "1"; lit "3" ].
Proof. reflexivity. Qed.

(** The dashes of the first line are replaced, those of the delimiter line
    are left. *)
Example scan_delimiterLine :
  lineAt_text delimiterLine 3 = lit "a--"
  /\ lineAt_text delimiterLine 7 = lit "---"
  /\ handleReplacement delimiterLine = (false, Some [ mkChange 1 3 [8211%N] ]).
Proof. repeat split. Qed.

(** A pair without its second segment: the closing quote is missing and the
    handler raises. *)
Example quote_missing_segment :
  handleQuote dquote
    (mkState (lit "ab") [cursor 1]
             (mkAutocorrect true [] (mkMagicQuotes [8220%N] [8216%N])) plainText)
    = None.
Proof. reflexivity. Qed.

(** ** Strings *)

Lemma eqb_eq (a b : jsstring) : eqb a b = true <-> a = b.
Proof.
  revert b; induction a as [|x a IH]; intros [|y b]; simpl; split;
    try congruence; try reflexivity.
  - intros H. apply andb_true_iff in H as [Hx Ha].
    apply N.eqb_eq in Hx. apply IH in Ha. congruence.
  - intros H. injection H as -> ->.
    rewrite N.eqb_refl. simpl. now apply IH.
Qed.

Lemma eqb_refl (a : jsstring) : eqb a a = true.
Proof. now apply eqb_eq. Qed.

Lemma eqb_neq (a b : jsstring) : eqb a b = false <-> a <> b.
Proof.
  split.
  - intros H E. apply eqb_eq in E. congruence.
  - intros H. destruct (eqb a b) eqn:E; [|reflexivity].
    apply eqb_eq in E. contradiction.
Qed.

Lemma arr_includes_In (arr : list jsstring) (x : jsstring) :
  arr_includes arr x = true <-> In x arr.
Proof.
  unfold arr_includes. rewrite existsb_exists. split.
  - intros (y & Hy & E). apply eqb_eq in E. now subst.
  - intros H. exists x. split; [assumption | apply eqb_refl].
Qed.

Lemma len_nonneg (s : jsstring) : 0 <= len s.
Proof. unfold len. lia. Qed.

Lemma len_app (a b : jsstring) : len (a ++ b) = len a + len b.
Proof. unfold len. rewrite length_app. lia. Qed.

(** [endsWith] looks at the end of the string only: dropping a prefix that
    leaves room for the key does not change it. *)
Lemma endsWith_skipn (s k : jsstring) (a : nat) :
  (a <= List.length s)%nat ->
  (List.length k <= List.length s - a)%nat ->
  endsWith (skipn a s) k = endsWith s k.
Proof.
  intros Ha H. unfold endsWith. rewrite length_skipn, skipn_skipn.
  replace (List.length s - a - List.length k + a)%nat
    with (List.length s - List.length k)%nat by lia.
  f_equal.
  destruct (Nat.leb_spec (List.length k) (List.length s - a));
    destruct (Nat.leb_spec (List.length k) (List.length s)); try reflexivity; lia.
Qed.

(** A key that does not fit is no suffix. *)
Lemma endsWith_too_long (s k : jsstring) :
  (List.length s < List.length k)%nat -> endsWith s k = false.
Proof.
  intros H. unfold endsWith.
  destruct (Nat.leb_spec (List.length k) (List.length s)); [lia | reflexivity].
Qed.

(** ** The sorted table *)

Lemma insertBy_In (x y : Replacement) (l : list Replacement) :
  In y (insertBy byKeyLengthDesc x l) <-> y = x \/ In y l.
Proof.
  induction l as [|z l IH]; simpl.
  - intuition congruence.
  - destruct (0 <? byKeyLengthDesc x z); simpl; rewrite ?IH; intuition congruence.
Qed.

Lemma sort_In (y : Replacement) (l : list Replacement) :
  In y (sort byKeyLengthDesc l) <-> In y l.
Proof.
  induction l as [|x l IH]; simpl; [tauto|].
  rewrite insertBy_In, IH. intuition congruence.
Qed.

Lemma insertBy_descending (x : Replacement) (l : list Replacement) :
  descending l -> descending (insertBy byKeyLengthDesc x l).
Proof.
  unfold descending. induction 1 as [|z l Hl IH Hz]; simpl.
  - constructor; constructor.
  - destruct (Z.ltb_spec 0 (byKeyLengthDesc x z)) as [Hlt|Hge].
    + constructor; [assumption|].
      apply Forall_forall. intros y Hy. apply insertBy_In in Hy as [->|Hy].
      * unfold byKeyLengthDesc, klen in *. lia.
      * rewrite Forall_forall in Hz. now apply Hz.
    + constructor; [now constructor|].
      constructor.
      * unfold byKeyLengthDesc, klen in *. lia.
      * rewrite Forall_forall in *. intros y Hy. specialize (Hz y Hy).
        unfold byKeyLengthDesc, klen in *. lia.
Qed.

Lemma sort_descending (l : list Replacement) :
  descending (sort byKeyLengthDesc l).
Proof.
  induction l as [|x l IH]; simpl.
  - constructor.
  - now apply insertBy_descending.
Qed.

(** The first match after inserting a rule into a sorted table: the new rule
    wins over the old first match unless that one is strictly longer. *)
Lemma find_insertBy (P : Replacement -> bool) (x : Replacement) (l : list Replacement) :
  descending l ->
  find P (insertBy byKeyLengthDesc x l) =
    if P x then
      match find P l with
      | Some y => if klen x <? klen y then Some y else Some x
      | None => Some x
      end
    else find P l.
Proof.
  unfold descending. induction 1 as [|z l Hl IH Hz]; simpl.
  - destruct (P x); reflexivity.
  - destruct (Z.ltb_spec 0 (byKeyLengthDesc x z)) as [Hlt|Hge]; simpl.
    + destruct (P z) eqn:Pz.
      * destruct (P x); [|reflexivity].
        destruct (Z.ltb_spec (klen x) (klen z)); [reflexivity|].
        unfold byKeyLengthDesc, klen in *. lia.
      * exact IH.
    + destruct (P x) eqn:Px; [|reflexivity].
      destruct (P z) eqn:Pz.
      * destruct (Z.ltb_spec (klen x) (klen z)); [|reflexivity].
        unfold byKeyLengthDesc, klen in *. lia.
      * destruct (find P l) as [y|] eqn:Fy; [|reflexivity].
        apply find_some in Fy as [Hy _].
        rewrite Forall_forall in Hz. specialize (Hz y Hy).
        destruct (Z.ltb_spec (klen x) (klen y)); [|reflexivity].
        unfold byKeyLengthDesc, klen in *. lia.
Qed.

(** The first match of the sorted table is the longest match of the
    original table, the earliest one among equally long matches. *)
Lemma find_sort_longest (P : Replacement -> bool) (l1 l2 : list Replacement)
    (r : Replacement) :
  P r = true ->
  (forall x, In x l1 -> P x = true -> klen x < klen r) ->
  (forall x, In x l2 -> P x = true -> klen x <= klen r) ->
  find P (sort byKeyLengthDesc (l1 ++ r :: l2)) = Some r.
Proof.
  intros Pr H1 H2. induction l1 as [|x l1 IH]; simpl.
  - rewrite find_insertBy by apply sort_descending. rewrite Pr.
    destruct (find P (sort byKeyLengthDesc l2)) as [y|] eqn:Fy; [|reflexivity].
    apply find_some in Fy as [Hy Py]. apply (proj1 (sort_In _ _)) in Hy.
    specialize (H2 y Hy Py).
    destruct (Z.ltb_spec (klen r) (klen y)); [lia | reflexivity].
  - rewrite find_insertBy by apply sort_descending.
    rewrite IH by (intros y Hy; apply H1; now right).
    destruct (P x) eqn:Px; [|reflexivity].
    specialize (H1 x (or_introl eq_refl) Px).
    destruct (Z.ltb_spec (klen x) (klen r)); [reflexivity | lia].
Qed.

(** [maxKeyLength] bounds the length of every key. *)
Lemma maxKeyLength_bound (st : EditorState) (x : Replacement) :
  In x (replacements (autocorrect st)) -> klen x <= maxKeyLength st.
Proof.
  intros Hx. apply (proj2 (sort_In x _)) in Hx.
  unfold maxKeyLength, sortedReplacements in *.
  pose proof (sort_descending (replacements (autocorrect st))) as Hs.
  destruct (sort byKeyLengthDesc (replacements (autocorrect st))) as [|z l].
  - destruct Hx.
  - destruct Hx as [->|Hx]; [unfold klen; lia|].
    inversion Hs as [|? ? _ Hz]; subst.
    rewrite Forall_forall in Hz. now apply Hz.
Qed.

(** ** The replacement scan *)

Lemma sliceDoc_inrange (st : EditorState) (a b : Z) :
  0 <= a <= b -> b <= len (doc st) ->
  sliceDoc st a b = skipn (Z.to_nat a) (firstn (Z.to_nat b) (doc st)).
Proof.
  intros Hab Hb. unfold sliceDoc, sliceString. cbv zeta.
  replace (Z.max 0 (Z.min (len (doc st)) a)) with a by lia.
  replace (Z.max a (Z.min (len (doc st)) b)) with b by lia.
  rewrite firstn_skipn_comm. do 2 f_equal. lia.
Qed.

Lemma textBefore_length (st : EditorState) (p : Z) :
  0 <= p <= len (doc st) -> List.length (textBefore st p) = Z.to_nat p.
Proof.
  intros Hp. unfold textBefore. rewrite sliceDoc_inrange by lia.
  simpl. rewrite length_firstn. unfold len in Hp. lia.
Qed.

(** The slice the scan reads is long enough for every key of the table: a
    key is a suffix of the slice exactly when it is one of the text before
    the cursor. *)
Lemma slice_matchesAt (st : EditorState) (p m : Z) (x : Replacement) :
  0 <= p <= len (doc st) -> klen x <= m ->
  endsWith (sliceDoc st (Z.max (p - m) 0) p) (key x) = matchesAt st p x.
Proof.
  intros Hp Hm. unfold matchesAt.
  pose proof (textBefore_length st p Hp) as Hlen.
  pose proof (len_nonneg (key x)) as Hk0. unfold klen in Hm.
  rewrite sliceDoc_inrange by lia.
  unfold textBefore in *. rewrite sliceDoc_inrange in * by lia. simpl skipn in *.
  set (s := firstn (Z.to_nat p) (doc st)) in *.
  unfold len in Hm.
  destruct (Nat.le_gt_cases (List.length (key x)) (List.length s)) as [Hk|Hk].
  - apply endsWith_skipn; lia.
  - rewrite (endsWith_too_long s) by lia.
    apply endsWith_too_long. rewrite length_skipn. lia.
Qed.

(** The loop over the rules stops at the first rule that matches the slice,
    and pushes at most the change of that rule. *)
Lemma scanRules_find (st : EditorState) (c : SelectionRange) (slice : jsstring)
    (rules : list Replacement) (changes : list ChangeSpec) :
  scanRules st c slice rules changes =
    changes ++
    match find (fun x => endsWith slice (key x)) rules with
    | Some r => if posInProtectedNode st (from c - klen r) then [] else [ruleEdit c r]
    | None => []
    end.
Proof.
  induction rules as [|x rules IH]; simpl; [now rewrite app_nil_r|].
  destruct (endsWith slice (key x)); [|exact IH].
  unfold klen. destruct (posInProtectedNode st (from c - len (key x)));
    [now rewrite app_nil_r | reflexivity].
Qed.

(** The body of the range loop appends to [changes] what the range pushes. *)
Lemma replacementForRange_acc (st : EditorState) (changes : list ChangeSpec)
    (r : SelectionRange) :
  replacementForRange st (sortedReplacements st) (maxKeyLength st) changes r
    = changes ++ replacementEdits st r.
Proof.
  unfold replacementEdits, replacementForRange.
  destruct (negb (empty r)); [now rewrite app_nil_r|].
  destruct (posInProtectedNode st (from r)); [now rewrite app_nil_r|].
  destruct (arr_includes [lit "---"; lit "..."] (lineAt_text st (from r)));
    [now rewrite app_nil_r|].
  rewrite (scanRules_find _ _ _ _ changes), (scanRules_find _ _ _ _ []). reflexivity.
Qed.

Lemma replacement_fold (st : EditorState) (rs : list SelectionRange)
    (changes : list ChangeSpec) :
  fold_left (replacementForRange st (sortedReplacements st) (maxKeyLength st)) rs changes
    = changes ++ flat_map (replacementEdits st) rs.
Proof.
  revert changes. induction rs as [|r rs IH]; intros changes; cbn [fold_left flat_map].
  - now rewrite app_nil_r.
  - rewrite IH, replacementForRange_acc, app_assoc. reflexivity.
Qed.

(** What one range contributes when the table has a longest match at it. *)
Lemma replacementEdits_longest (st : EditorState) (c : SelectionRange)
    (l1 : list Replacement) (r : Replacement) (l2 : list Replacement) :
  0 <= from c <= len (doc st) ->
  longestMatch st (from c) l1 r l2 ->
  replacementEdits st c =
    if scanned st c then
      if posInProtectedNode st (from c - klen r) then [] else [ruleEdit c r]
    else [].
Proof.
  intros Hc (Htab & Hr & H1 & H2).
  unfold replacementEdits, replacementForRange, scanned.
  destruct (empty c); cbn [negb andb]; [|reflexivity].
  destruct (posInProtectedNode st (from c)); cbn [negb andb]; [reflexivity|].
  destruct (arr_includes [lit "---"; lit "..."] (lineAt_text st (from c)));
    cbn [negb andb]; [reflexivity|].
  rewrite scanRules_find. cbn [app]. unfold sortedReplacements. rewrite Htab.
  assert (Hin : forall x, In x (l1 ++ r :: l2) ->
            endsWith (sliceDoc st (Z.max (from c - maxKeyLength st) 0) (from c)) (key x)
            = matchesAt st (from c) x).
  { intros x Hx. apply slice_matchesAt; [assumption|].
    apply maxKeyLength_bound. now rewrite Htab. }
  rewrite find_sort_longest; [reflexivity | | |].
  - rewrite Hin; [assumption | apply in_elt].
  - intros x Hx Px. rewrite Hin in Px by (apply in_or_app; now left). now apply H1.
  - intros x Hx Px. rewrite Hin in Px by (apply in_or_app; right; now right).
    now apply H2.
Qed.

Lemma handleReplacement_active (st : EditorState) :
  active (autocorrect st) = true ->
  replacements (autocorrect st) <> [] ->
  handleReplacement st = (false, Some (flat_map (replacementEdits st) (ranges st))).
Proof.
  intros Ha Hne. unfold handleReplacement. cbv zeta. rewrite Ha, replacement_fold.
  destruct (replacements (autocorrect st)); [contradiction | reflexivity].
Qed.

(** C1.  Take a cursor that the scan processes: an empty range that is not in
    a protected node and not on a [---] or [...] line, with the start of the
    match outside protected nodes too.  Among the rules whose key is a suffix
    of the text before the cursor, let [r] be the one with the longest key,
    the first of the table among equally long ones.  Then that cursor
    contributes exactly one change, which replaces the key of [r] before the
    cursor by the value of [r]; the dispatched changes are those of the
    ranges before it, this one change, and those of the ranges after it. *)
Theorem handleReplacement_longest_match (st : EditorState)
    (l1 : list Replacement) (r : Replacement) (l2 : list Replacement)
    (pre : list SelectionRange) (c : SelectionRange) (post : list SelectionRange) :
  active (autocorrect st) = true ->
  ranges st = pre ++ c :: post ->
  0 <= from c <= len (doc st) ->
  scanned st c = true ->
  longestMatch st (from c) l1 r l2 ->
  posInProtectedNode st (from c - klen r) = false ->
  replacementEdits st c = [ mkChange (from c - len (key r)) (from c) (value r) ]
  /\ handleReplacement st =
       (false, Some (flat_map (replacementEdits st) pre
                     ++ [ mkChange (from c - len (key r)) (from c) (value r) ]
                     ++ flat_map (replacementEdits st) post)).
Proof.
  intros Ha Hr Hc Hs Hl Hp.
  assert (He : replacementEdits st c = [ruleEdit c r]).
  { rewrite (replacementEdits_longest st c l1 r l2 Hc Hl), Hs, Hp. reflexivity. }
  split; [exact He|].
  rewrite handleReplacement_active; [|assumption|].
  - rewrite Hr, flat_map_app. simpl. rewrite He. reflexivity.
  - destruct Hl as (Htab & _). rewrite Htab. now destruct l1.
Qed.

Lemma handleReplacement_longest_match_witness :
  handleReplacement arrowState = (false, Some [ mkChange 0 2 [8594%N] ]).
Proof.
  apply (handleReplacement_longest_match arrowState
           [ mkReplacement (lit ">") (lit "}") ] (mkReplacement (lit "->") [8594%N]) []
           [] (cursor 2) []).
  - reflexivity.
  - reflexivity.
  - vm_compute. split; discriminate.
  - reflexivity.
  - repeat split.
    + intros x [<-|[]] _. reflexivity.
    + intros x [].
  - reflexivity.
Defined.

(** C2.  When the start of the span of the longest matching rule is in a
    protected node, the cursor contributes no change at all: the scan does
    not go on to a shorter key that matches as well, whether or not the
    cursor itself is protected. *)
Theorem handleReplacement_protected_start (st : EditorState)
    (l1 : list Replacement) (r : Replacement) (l2 : list Replacement)
    (pre : list SelectionRange) (c : SelectionRange) (post : list SelectionRange) :
  active (autocorrect st) = true ->
  ranges st = pre ++ c :: post ->
  0 <= from c <= len (doc st) ->
  longestMatch st (from c) l1 r l2 ->
  posInProtectedNode st (from c - len (key r)) = true ->
  replacementEdits st c = []
  /\ handleReplacement st =
       (false, Some (flat_map (replacementEdits st) pre
                     ++ flat_map (replacementEdits st) post)).
Proof.
  intros Ha Hr Hc Hl Hp.
  assert (He : replacementEdits st c = []).
  { rewrite (replacementEdits_longest st c l1 r l2 Hc Hl).
    unfold klen. rewrite Hp. now destruct (scanned st c). }
  split; [exact He|].
  rewrite handleReplacement_active; [|assumption|].
  - rewrite Hr, flat_map_app. simpl. rewrite He. reflexivity.
  - destruct Hl as (Htab & _). rewrite Htab. now destruct l1.
Qed.

Lemma handleReplacement_protected_start_witness :
  posInProtectedNode arrowInCode 2 = false
  /\ matchesAt arrowInCode 2 (mkReplacement (lit ">") (lit "}")) = true
  /\ posInProtectedNode arrowInCode (2 - 1) = false
  /\ handleReplacement arrowInCode = (false, Some []).
Proof.
  split; [reflexivity|]. split; [reflexivity|]. split; [reflexivity|].
  apply (handleReplacement_protected_start arrowInCode
           [ mkReplacement (lit ">") (lit "}") ] (mkReplacement (lit "->") [8594%N]) []
           [] (cursor 2) []).
  - reflexivity.
  - reflexivity.
  - vm_compute. split; discriminate.
  - repeat split.
    + intros x [<-|[]] _. reflexivity.
    + intros x [].
  - reflexivity.
Defined.

(** ** Changes of several cursors *)

Lemma scanRules_In (st : EditorState) (c : SelectionRange) (slice : jsstring)
    (rules : list Replacement) (e : ChangeSpec) :
  In e (scanRules st c slice rules []) ->
  exists r, In r rules /\ e = ruleEdit c r.
Proof.
  rewrite scanRules_find. cbn [app].
  destruct (find _ rules) as [r|] eqn:Fr; [|intros []].
  apply find_some in Fr as [Hr _].
  destruct (posInProtectedNode st (from c - klen r)); [intros []|].
  intros [<-|[]]. now exists r.
Qed.

Lemma scanRules_length (st : EditorState) (c : SelectionRange) (slice : jsstring)
    (rules : list Replacement) :
  (List.length (scanRules st c slice rules []) <= 1)%nat.
Proof.
  rewrite scanRules_find. cbn [app].
  destruct (find _ rules) as [r|]; [|simpl; lia].
  destruct (posInProtectedNode st (from c - klen r)); simpl; lia.
Qed.

(** A range pushes at most one change. *)
Lemma replacementEdits_length (st : EditorState) (c : SelectionRange) :
  (List.length (replacementEdits st c) <= 1)%nat.
Proof.
  unfold replacementEdits, replacementForRange.
  destruct (negb (empty c)); [simpl; lia|].
  destruct (posInProtectedNode st (from c)); [simpl; lia|].
  destruct (arr_includes [lit "---"; lit "..."] (lineAt_text st (from c))); [simpl; lia|].
  apply scanRules_length.
Qed.

(** The change of a range ends at the cursor and reaches back by the length
    of one key of the table. *)
Lemma replacementEdits_span (st : EditorState) (c : SelectionRange) (e : ChangeSpec) :
  In e (replacementEdits st c) ->
  cto e = from c /\ from c - maxKeyLength st <= cfrom e <= from c.
Proof.
  unfold replacementEdits, replacementForRange.
  destruct (negb (empty c)); [intros []|].
  destruct (posInProtectedNode st (from c)); [intros []|].
  destruct (arr_includes [lit "---"; lit "..."] (lineAt_text st (from c))); [intros []|].
  intros He. apply scanRules_In in He as (r & Hr & ->).
  apply (proj1 (sort_In _ _)) in Hr. apply maxKeyLength_bound in Hr.
  pose proof (len_nonneg (key r)). unfold ruleEdit, klen in *. simpl. lia.
Qed.

Lemma ForallOrdPairs_app {A} (R : A -> A -> Prop) (l1 l2 : list A) :
  ForallOrdPairs R l1 -> ForallOrdPairs R l2 ->
  (forall a b, In a l1 -> In b l2 -> R a b) ->
  ForallOrdPairs R (l1 ++ l2).
Proof.
  induction 1 as [|a l1 Ha Hl1 IH]; intros H2 H12; simpl; [assumption|].
  constructor.
  - apply Forall_app. split; [assumption|].
    apply Forall_forall. intros b Hb. apply H12; [now left | assumption].
  - apply IH; [assumption|]. intros x y Hx Hy. apply H12; [now right | assumption].
Qed.

Lemma ForallOrdPairs_short {A} (R : A -> A -> Prop) (l : list A) :
  (List.length l <= 1)%nat -> ForallOrdPairs R l.
Proof.
  destruct l as [|a [|b l]]; simpl; intros H.
  - constructor.
  - constructor; constructor.
  - lia.
Qed.

(** The claim C5 as it stands fails: with the rule ["aa"] and cursors at 2
    and 3 of ["aaaa"], the two changes are [0,2) and [1,3). *)
Lemma handleReplacement_overlap :
  handleReplacement closeCursors
    = (false, Some [ mkChange 0 2 (lit "b"); mkChange 1 3 (lit "b") ])
  /\ ~ ForallOrdPairs disjointChanges [ mkChange 0 2 (lit "b"); mkChange 1 3 (lit "b") ].
Proof.
  split; [reflexivity|].
  intros H. inversion H as [|a l Ha _]; subst.
  inversion Ha as [|b l' Hab _]; subst.
  unfold disjointChanges in Hab. simpl in Hab. lia.
Qed.

(** C5, amended.  Every range contributes at most one change, which ends at
    its cursor and reaches back by no more than the longest key.  When the
    ranges are in ascending order and any two of them are at least the
    longest key length apart, no two changes of the pass overlap. *)
Theorem handleReplacement_disjoint (st : EditorState) :
  active (autocorrect st) = true ->
  replacements (autocorrect st) <> [] ->
  StronglySorted (fun a b => from a + maxKeyLength st <= from b) (ranges st) ->
  (forall c, In c (ranges st) ->
     (List.length (replacementEdits st c) <= 1)%nat
     /\ forall e, In e (replacementEdits st c) ->
          cto e = from c /\ from c - maxKeyLength st <= cfrom e <= from c)
  /\ exists cs, handleReplacement st = (false, Some cs)
               /\ ForallOrdPairs disjointChanges cs.
Proof.
  intros Ha Hne Hs. split.
  { intros c _. split; [apply replacementEdits_length|].
    intros e. apply replacementEdits_span. }
  exists (flat_map (replacementEdits st) (ranges st)).
  split; [now apply handleReplacement_active|].
  induction Hs as [|c rs Hrs IH Hc]; simpl; [constructor|].
  apply ForallOrdPairs_app.
  - apply ForallOrdPairs_short, replacementEdits_length.
  - exact IH.
  - intros a b Ha' Hb. apply in_flat_map in Hb as (c' & Hc' & Hb).
    rewrite Forall_forall in Hc. specialize (Hc c' Hc').
    apply replacementEdits_span in Ha' as [Hato _].
    apply replacementEdits_span in Hb as [_ Hbfrom].
    left. lia.
Qed.

Lemma handleReplacement_disjoint_witness :
  exists cs, handleReplacement spacedCursors = (false, Some cs)
             /\ ForallOrdPairs disjointChanges cs.
Proof.
  apply (handleReplacement_disjoint spacedCursors).
  - reflexivity.
  - discriminate.
  - repeat constructor; vm_compute; discriminate.
Defined.

(** ** Backspace *)

Lemma downgrades_pair (start end_ plain ch : jsstring) :
  arr_includes [start; end_] ch && negb (eqb ch plain) = true
  <-> downgrades start end_ plain ch.
Proof.
  unfold downgrades. rewrite andb_true_iff, arr_includes_In, negb_true_iff, eqb_neq.
  simpl. intuition congruence.
Qed.

(** The loop body of [handleBackspace], by cases on the character before
    the range. *)
Lemma backspaceOne_cases (st : EditorState) (r : SelectionRange) :
  backspaceOne st r =
    if from r =? 0 then (false, [])
    else if primaryGlyph st (charBefore st r)
         then (true, [ mkChange (from r - 1) (from r) dquote ])
    else if secondaryGlyph st (charBefore st r)
         then (true, [ mkChange (from r - 1) (from r) squote ])
    else (false, []).
Proof. reflexivity. Qed.

Lemma backspaceOne_directional (st : EditorState) (r : SelectionRange) :
  from r <> 0 ->
  directional st (charBefore st r) = true ->
  backspaceOne st r
    = (true, [ mkChange (from r - 1) (from r) (plainFor st (charBefore st r)) ]).
Proof.
  intros Hf Hd. rewrite backspaceOne_cases.
  destruct (Z.eqb_spec (from r) 0); [contradiction|].
  unfold directional, plainFor in *.
  destruct (primaryGlyph st (charBefore st r)); [reflexivity|].
  simpl in Hd. now rewrite Hd.
Qed.


(** The body of the range loop adds to [hasHandled] and [changes] what the
    range contributes. *)
Lemma backspaceForRange_acc (st : EditorState) (h : bool) (cs : list ChangeSpec)
    (r : SelectionRange) :
  backspaceForRange st (h, cs) r
    = (h || fst (backspaceOne st r), cs ++ backspaceEdits st r).
Proof.
  unfold backspaceEdits, backspaceOne, backspaceForRange.
  destruct (from r =? 0); simpl; [now rewrite orb_false_r, app_nil_r|].
  destruct (arr_includes (primaryMagicQuotes st) _ && _); simpl;
    [now rewrite orb_true_r|].
  destruct (arr_includes (secondaryMagicQuotes st) _ && _); simpl;
    [now rewrite orb_true_r|].
  now rewrite orb_false_r, app_nil_r.
Qed.

Lemma backspace_fold (st : EditorState) (rs : list SelectionRange) (h : bool)
    (cs : list ChangeSpec) :
  fold_left (backspaceForRange st) rs (h, cs)
    = (h || existsb (fun r => fst (backspaceOne st r)) rs,
       cs ++ flat_map (backspaceEdits st) rs).
Proof.
  revert h cs. induction rs as [|r rs IH]; intros h cs; cbn [fold_left existsb flat_map].
  - now rewrite orb_false_r, app_nil_r.
  - rewrite backspaceForRange_acc, IH, orb_assoc, app_assoc. reflexivity.
Qed.

Lemma handleBackspace_active (st : EditorState) :
  active (autocorrect st) = true ->
  handleBackspace st =
    (existsb (fun r => fst (backspaceOne st r)) (ranges st),
     Some (flat_map (backspaceEdits st) (ranges st))).
Proof.
  intros Ha. unfold handleBackspace. rewrite Ha, backspace_fold. reflexivity.
Qed.

(** C8.  With autocorrect active and the two pairs [ps .. pe] and
    [ss .. se]: the handler returns true exactly when some range is handled;
    the dispatched changes are those of the ranges, in order; a handled
    range contributes one change, which replaces the one character before it
    by one character, the plain double quote for a primary glyph and the
    plain single quote otherwise; a range that is not handled contributes
    nothing. *)
Theorem handleBackspace_handled (st : EditorState) (ps pe ss se : jsstring) :
  active (autocorrect st) = true ->
  primaryMagicQuotes st = [ps; pe] ->
  secondaryMagicQuotes st = [ss; se] ->
  (fst (handleBackspace st) = true
     <-> exists r, In r (ranges st) /\ handledRange st ps pe ss se r)
  /\ snd (handleBackspace st) = Some (flat_map (backspaceEdits st) (ranges st))
  /\ forall r,
       (handledRange st ps pe ss se r ->
          exists q, backspaceEdits st r = [ mkChange (from r - 1) (from r) q ]
                    /\ len q = 1
                    /\ (downgrades ps pe dquote (charBefore st r) -> q = dquote)
                    /\ (~ downgrades ps pe dquote (charBefore st r) -> q = squote))
       /\ (~ handledRange st ps pe ss se r -> backspaceEdits st r = []).
Proof.
  intros Ha Hp Hs.
  assert (HP : forall r, primaryGlyph st (charBefore st r) = true
                         <-> downgrades ps pe dquote (charBefore st r)).
  { intros r. unfold primaryGlyph. rewrite Hp. apply downgrades_pair. }
  assert (HS : forall r, secondaryGlyph st (charBefore st r) = true
                         <-> downgrades ss se squote (charBefore st r)).
  { intros r. unfold secondaryGlyph. rewrite Hs. apply downgrades_pair. }
  assert (Hfst : forall r, fst (backspaceOne st r) = true
                           <-> handledRange st ps pe ss se r).
  { intros r. rewrite backspaceOne_cases. unfold handledRange.
    specialize (HP r). specialize (HS r).
    destruct (Z.eqb_spec (from r) 0);
      destruct (primaryGlyph st (charBefore st r));
      destruct (secondaryGlyph st (charBefore st r));
      cbn [fst]; intuition congruence. }
  rewrite handleBackspace_active by assumption. cbn [fst snd].
  split; [|split; [reflexivity|]].
  - rewrite existsb_exists. split; intros (r & Hr & H); exists r; split;
      try assumption; now apply Hfst.
  - intros r. unfold backspaceEdits, handledRange.
    rewrite backspaceOne_cases.
    specialize (HP r). specialize (HS r).
    destruct (Z.eqb_spec (from r) 0) as [E|E]; cbn [snd].
    { split; [intros [F _]; contradiction | reflexivity]. }
    destruct (primaryGlyph st (charBefore st r)); cbn [snd].
    { split; [|intros H; exfalso; apply H; split; [assumption | left; now apply HP]].
      intros _. exists dquote. repeat split.
      intros H. exfalso. apply H. now apply HP. }
    destruct (secondaryGlyph st (charBefore st r)); cbn [snd].
    { split; [|intros H; exfalso; apply H; split; [assumption | right; now apply HS]].
      intros _. exists squote. repeat split.
      intros H. apply HP in H. discriminate. }
    split; [|reflexivity].
    intros [_ [D|D]]; [apply HP in D | apply HS in D]; discriminate.
Qed.

Lemma handleBackspace_handled_witness :
  fst (handleBackspace afterCurly) = true
  <-> exists r, In r (ranges afterCurly)
                /\ handledRange afterCurly [8220%N] [8221%N] [8216%N] [8217%N] r.
Proof.
  apply (handleBackspace_handled afterCurly [8220%N] [8221%N] [8216%N] [8217%N]);
    reflexivity.
Defined.

Lemma plainFor_len (st : EditorState) (ch : jsstring) : len (plainFor st ch) = 1.
Proof. unfold plainFor. now destruct (primaryGlyph st ch). Qed.

(** *** The state after the changes of backspace *)

Lemma sliceString_one_nth (d : jsstring) (f : Z) :
  0 < f <= len d ->
  sliceString d (f - 1) f =
    match nth_error d (Z.to_nat (f - 1)) with
    | Some x => [x]
    | None => []
    end.
Proof.
  intros Hf. unfold sliceString. cbv zeta.
  replace (Z.max 0 (Z.min (len d) (f - 1))) with (f - 1) by lia.
  replace (Z.max (f - 1) (Z.min (len d) f)) with f by lia.
  replace (Z.to_nat (f - (f - 1))) with 1%nat by lia.
  destruct (nth_error d (Z.to_nat (f - 1))) as [x|] eqn:En.
  - apply nth_error_split in En as (l1 & l2 & -> & El).
    rewrite <- El, skipn_app, skipn_all, Nat.sub_diag. reflexivity.
  - apply nth_error_None in En. unfold len in Hf. lia.
Qed.

Lemma applyChange_unit_len (d : jsstring) (c : ChangeSpec) :
  unitChange (len d) c -> len (applyChange d c) = len d.
Proof.
  intros (H0 & H1 & H2 & H3). unfold len, applyChange in *.
  rewrite !length_app, length_firstn, length_skipn. lia.
Qed.

Lemma applyLastFirst_unit_len (d : jsstring) (cs : list ChangeSpec) :
  Forall (unitChange (len d)) cs -> len (applyLastFirst d cs) = len d.
Proof.
  induction 1 as [|c cs Hc Hcs IH]; simpl; [reflexivity|].
  rewrite applyChange_unit_len; rewrite IH; [reflexivity | assumption].
Qed.

(** One unit change, read one position at a time. *)
Lemma nth_applyChange_unit (d : jsstring) (c : ChangeSpec) (p : nat) :
  unitChange (len d) c ->
  nth_error (applyChange d c) p =
    if Z.of_nat p =? cfrom c then nth_error (insert c) 0 else nth_error d p.
Proof.
  intros (H0 & H1 & H2 & H3). unfold applyChange, len in *.
  destruct (insert c) as [|x [|y q]]; simpl in H3; try lia.
  destruct (Z.eqb_spec (Z.of_nat p) (cfrom c)) as [E|E].
  - rewrite nth_error_app2 by (rewrite length_firstn; lia).
    rewrite length_firstn.
    replace (p - Nat.min (Z.to_nat (cfrom c)) (List.length d))%nat with 0%nat by lia.
    reflexivity.
  - destruct (Nat.lt_ge_cases p (Z.to_nat (cfrom c))) as [Hlt|Hge].
    + rewrite nth_error_app1 by (rewrite length_firstn; lia).
      rewrite nth_error_firstn.
      destruct (Nat.ltb_spec p (Z.to_nat (cfrom c))); [reflexivity | lia].
    + rewrite nth_error_app2 by (rewrite length_firstn; lia).
      rewrite length_firstn.
      rewrite nth_error_app2 by (simpl; lia).
      rewrite nth_error_skipn. f_equal. simpl. lia.
Qed.

Lemma sliceString_applyChange_unit (d : jsstring) (c : ChangeSpec) (f : Z) :
  unitChange (len d) c -> 0 < f <= len d ->
  sliceString (applyChange d c) (f - 1) f =
    if cfrom c =? f - 1 then insert c else sliceString d (f - 1) f.
Proof.
  intros Hc Hf.
  rewrite !sliceString_one_nth by (rewrite ?applyChange_unit_len; assumption).
  rewrite nth_applyChange_unit by assumption.
  replace (Z.of_nat (Z.to_nat (f - 1))) with (f - 1) by lia.
  rewrite (Z.eqb_sym (f - 1)).
  destruct (cfrom c =? f - 1); [|reflexivity].
  destruct Hc as (_ & _ & _ & H3). unfold len in H3.
  destruct (insert c) as [|x [|y q]]; simpl in H3; try lia. reflexivity.
Qed.

(** Several unit changes: the character before [f] is the one inserted by
    the first change at that place, or the old one. *)
Lemma sliceString_applyLastFirst_unit (d : jsstring) (cs : list ChangeSpec) (f : Z) :
  Forall (unitChange (len d)) cs -> 0 < f <= len d ->
  sliceString (applyLastFirst d cs) (f - 1) f =
    match find (fun c => cfrom c =? f - 1) cs with
    | Some c => insert c
    | None => sliceString d (f - 1) f
    end.
Proof.
  intros Hcs Hf. induction Hcs as [|c cs Hc Hcs IH]; simpl; [reflexivity|].
  pose proof (applyLastFirst_unit_len d cs Hcs) as Hl.
  rewrite sliceString_applyChange_unit by (rewrite Hl; assumption).
  destruct (cfrom c =? f - 1); [reflexivity | exact IH].
Qed.

(** Unit changes move no position. *)
Lemma mapDelta_unit (n : Z) (c : ChangeSpec) (assoc pos : Z) :
  unitChange n c -> mapDelta c assoc pos = 0.
Proof.
  intros (H0 & H1 & H2 & H3). unfold mapDelta. rewrite H3.
  destruct (Z.ltb_spec pos (cfrom c)); [reflexivity|].
  destruct (Z.ltb_spec (cto c) pos); [lia|].
  destruct (Z.eqb_spec pos (cfrom c)).
  - destruct (Z.eqb_spec (cto c - cfrom c) 0); [lia | reflexivity].
  - destruct (Z.eqb_spec pos (cto c)); lia.
Qed.

Lemma mapPos_unit (n : Z) (cs : list ChangeSpec) (assoc pos : Z) :
  Forall (unitChange n) cs -> mapPos cs assoc pos = pos.
Proof.
  intros Hcs. unfold mapPos.
  assert (H : forall acc, fold_left (fun p c => p + mapDelta c assoc pos) cs acc = acc).
  { induction Hcs as [|c cs Hc Hcs IH]; intros acc; simpl; [reflexivity|].
    rewrite (mapDelta_unit n c assoc pos Hc), Z.add_0_r. apply IH. }
  apply H.
Qed.

Lemma mapRange_unit (n : Z) (cs : list ChangeSpec) (r : SelectionRange) :
  Forall (unitChange n) cs -> mapRange cs r = r.
Proof.
  intros Hcs. unfold mapRange, empty, cursor.
  rewrite !(mapPos_unit n) by assumption.
  destruct (Z.eqb_spec (from r) (to r)) as [E|E]; destruct r; simpl in *; congruence.
Qed.

Lemma flat_map_nil {A B} (f : A -> list B) (l : list A) :
  (forall x, In x l -> f x = []) -> flat_map f l = [].
Proof.
  induction l as [|x l IH]; simpl; intros H; [reflexivity|].
  rewrite (H x (or_introl eq_refl)), IH; [reflexivity|].
  intros y Hy. apply H. now right.
Qed.

(** The changes of a range in [handleBackspace]: none, or the one that puts
    the plain quote for the directional quote before the range. *)
Lemma backspaceEdits_In (st : EditorState) (r : SelectionRange) (c : ChangeSpec) :
  In c (backspaceEdits st r) ->
  from r <> 0
  /\ directional st (charBefore st r) = true
  /\ c = mkChange (from r - 1) (from r) (plainFor st (charBefore st r)).
Proof.
  unfold backspaceEdits. rewrite backspaceOne_cases.
  unfold directional, plainFor.
  destruct (Z.eqb_spec (from r) 0); [intros []|].
  destruct (primaryGlyph st (charBefore st r)).
  - intros [<-|[]]. auto.
  - destruct (secondaryGlyph st (charBefore st r)); [|intros []].
    intros [<-|[]]. auto.
Qed.

Lemma backspace_changes_unit (st : EditorState) :
  (forall r, In r (ranges st) -> 0 <= from r <= len (doc st)) ->
  Forall (unitChange (len (doc st))) (flat_map (backspaceEdits st) (ranges st)).
Proof.
  intros Hr. apply Forall_forall. intros c Hc.
  apply in_flat_map in Hc as (r & Hin & Hc).
  apply backspaceEdits_In in Hc as (Hf & _ & ->).
  specialize (Hr r Hin). unfold unitChange. simpl.
  rewrite plainFor_len. lia.
Qed.

(** Unit changes elsewhere leave a character as it is. *)
Lemma nth_applyLastFirst_unit (d : jsstring) (cs : list ChangeSpec) (p : nat) :
  Forall (unitChange (len d)) cs ->
  (forall c, In c cs -> cfrom c <> Z.of_nat p) ->
  nth_error (applyLastFirst d cs) p = nth_error d p.
Proof.
  intros Hcs. induction Hcs as [|c cs Hc Hcs IH]; intros Hp; simpl; [reflexivity|].
  pose proof (applyLastFirst_unit_len d cs Hcs) as Hl.
  rewrite nth_applyChange_unit by (rewrite Hl; assumption).
  destruct (Z.eqb_spec (Z.of_nat p) (cfrom c)) as [E|E].
  - exfalso. apply (Hp c); [now left | congruence].
  - apply IH. intros c' Hc'. apply Hp. now right.
Qed.

(** Unit changes outside a span leave its text as it is. *)
Lemma sliceString_untouched (d : jsstring) (cs : list ChangeSpec) (a b : Z) :
  Forall (unitChange (len d)) cs ->
  0 <= a <= b -> b <= len d ->
  (forall c, In c cs -> ~ (a <= cfrom c < b)) ->
  sliceString (applyLastFirst d cs) a b = sliceString d a b.
Proof.
  intros Hcs Ha Hb Hout. unfold sliceString. cbv zeta.
  rewrite (applyLastFirst_unit_len d cs Hcs).
  replace (Z.max 0 (Z.min (len d) a)) with a by lia.
  replace (Z.max a (Z.min (len d) b)) with b by lia.
  apply nth_error_ext. intros i.
  rewrite !nth_error_firstn, !nth_error_skipn.
  destruct (Nat.ltb_spec i (Z.to_nat (b - a))); [|reflexivity].
  apply nth_applyLastFirst_unit; [assumption|].
  intros c Hc E. apply (Hout c Hc). lia.
Qed.

(** For ranges that begin at strictly ascending positions the changes of
    backspace are ascending, so the host takes them in one pass. *)
Lemma backspace_ascending (st : EditorState) (rs : list SelectionRange) (pos : Z) :
  StronglySorted (fun a b => from a < from b) rs ->
  (forall r, In r rs -> pos < from r \/ from r = 0) ->
  (forall r, In r rs -> from r <= len (doc st)) ->
  0 <= pos ->
  ascendingChanges pos (len (doc st)) (flat_map (backspaceEdits st) rs) = true.
Proof.
  intros Hs. revert pos. induction Hs as [|r rs Hrs IH Hlt]; intros pos Hpos Hlen H0;
    cbn [flat_map]; [reflexivity|].
  rewrite Forall_forall in Hlt.
  destruct (backspaceEdits st r) as [|c l] eqn:Ec.
  - cbn [app]. apply IH; [|intros r' Hr'; apply Hlen; now right | assumption].
    intros r' Hr'. specialize (Hlt r' Hr').
    destruct (Hpos r (or_introl eq_refl)) as [H|H]; [left; lia|].
    destruct (Hpos r' (or_intror Hr')) as [H'|H']; [now left | now right].
  - assert (Hc : In c (backspaceEdits st r)) by (rewrite Ec; now left).
    apply backspaceEdits_In in Hc as (Hf & _ & ->).
    assert (l = []) as ->.
    { unfold backspaceEdits in Ec. rewrite backspaceOne_cases in Ec.
      destruct (from r =? 0); [discriminate|].
      destruct (primaryGlyph st (charBefore st r)); [now injection Ec|].
      destruct (secondaryGlyph st (charBefore st r)); [now injection Ec | discriminate]. }
    cbn [app ascendingChanges cfrom cto].
    destruct (Hpos r (or_introl eq_refl)) as [H|H]; [|contradiction].
    pose proof (Hlen r (or_introl eq_refl)) as Hlr.
    rewrite IH.
    + destruct (Z.leb_spec pos (from r - 1)); [|lia].
      destruct (Z.leb_spec (from r - 1) (from r)); [|lia].
      destruct (Z.leb_spec (from r) (len (doc st))); [reflexivity | lia].
    + intros r' Hr'. left. now apply Hlt.
    + intros r' Hr'. apply Hlen. now right.
    + lia.
Qed.

(** The state after the changes of backspace: the ranges are where they
    were. *)
Lemma backspace_dispatch (st : EditorState) (tree' : Z -> string) :
  (forall r, In r (ranges st) -> 0 <= from r <= len (doc st)) ->
  StronglySorted (fun a b => from a < from b) (ranges st) ->
  dispatch st (flat_map (backspaceEdits st) (ranges st)) tree'
    = Some (mkState (applyLastFirst (doc st) (flat_map (backspaceEdits st) (ranges st)))
                    (ranges st) (autocorrect st) tree').
Proof.
  intros Hr Hs. unfold dispatch, applyChanges.
  rewrite backspace_ascending; try assumption; try lia.
  - do 2 f_equal.
    transitivity (map (fun r : SelectionRange => r) (ranges st)); [|apply map_id].
    apply map_ext. intros r.
    apply (mapRange_unit (len (doc st))). now apply backspace_changes_unit.
  - intros r Hin. specialize (Hr r Hin). lia.
  - intros r Hin. specialize (Hr r Hin). lia.
Qed.

(** After the changes of backspace, the character before a range of the
    selection is the plain quote if the range was behind a directional quote,
    and the old character if not. *)
Lemma charBefore_after_backspace (st : EditorState) (r : SelectionRange) :
  (forall r, In r (ranges st) -> 0 <= from r <= len (doc st)) ->
  In r (ranges st) -> from r <> 0 ->
  sliceString (applyLastFirst (doc st) (flat_map (backspaceEdits st) (ranges st)))
              (from r - 1) (from r) =
    if directional st (charBefore st r) then plainFor st (charBefore st r)
    else charBefore st r.
Proof.
  intros Hr Hin Hf.
  pose proof (backspace_changes_unit st Hr) as Hu.
  rewrite sliceString_applyLastFirst_unit by (try assumption; specialize (Hr r Hin); lia).
  destruct (find _ _) as [c|] eqn:Fc.
  - apply find_some in Fc as (Hc & Ec). apply Z.eqb_eq in Ec.
    apply in_flat_map in Hc as (r' & _ & Hc).
    apply backspaceEdits_In in Hc as (_ & Hd & ->). simpl in Ec.
    assert (E : charBefore st r' = charBefore st r).
    { unfold charBefore. now replace (from r') with (from r) by lia. }
    rewrite E in *. now rewrite Hd.
  - destruct (directional st (charBefore st r)) eqn:Hd; [|reflexivity].
    exfalso.
    pose proof (find_none _ _ Fc
                  (mkChange (from r - 1) (from r) (plainFor st (charBefore st r)))) as Hn.
    simpl in Hn. rewrite Z.eqb_refl in Hn.
    assert (Hc : In (mkChange (from r - 1) (from r) (plainFor st (charBefore st r)))
                    (flat_map (backspaceEdits st) (ranges st))).
    { apply in_flat_map. exists r. split; [assumption|].
      unfold backspaceEdits. rewrite backspaceOne_directional by assumption.
      now left. }
    specialize (Hn Hc). discriminate.
Qed.




(** The claim C10 as it stands fails: of two selections that touch, the
    second is behind the closing quote that ends the text of the first, and
    its change replaces that quote. *)
Lemma handleBackspace_touching_selections :
  handleBackspace touchingSelections
    = (true, Some [ mkChange 0 1 dquote; mkChange 2 3 dquote ])
  /\ applyChanges (doc touchingSelections) [ mkChange 0 1 dquote; mkChange 2 3 dquote ]
     = Some (dquote ++ lit "a" ++ dquote ++ lit "bc")
  /\ sliceDoc touchingSelections 1 3 = lit "a" ++ [8221%N]
  /\ sliceString (dquote ++ lit "a" ++ dquote ++ lit "bc") 1 3 = lit "a" ++ dquote
  /\ sliceString (dquote ++ lit "a" ++ dquote ++ lit "bc") 1 3
     <> sliceDoc touchingSelections 1 3.
Proof. repeat split. discriminate. Qed.

(** C10, amended.  [handleBackspace] does not look at whether a range is
    empty.  Let the ranges lie in the document and begin at strictly
    ascending positions.  A selection that does not begin at the start of
    the document and has a directional quote before it is treated as a
    cursor at its beginning would be: the quote is replaced by the plain
    quote and the handler returns true.  When no other range begins inside
    the selection or at its end, the selected text is the same in the
    document after the changes of the whole transaction. *)
Theorem handleBackspace_selection (st : EditorState)
    (pre : list SelectionRange) (r : SelectionRange) (post : list SelectionRange) :
  active (autocorrect st) = true ->
  ranges st = pre ++ r :: post ->
  (forall r', In r' (ranges st) -> 0 <= from r' <= len (doc st)) ->
  StronglySorted (fun a b => from a < from b) (ranges st) ->
  0 < from r <= to r -> to r <= len (doc st) ->
  directional st (charBefore st r) = true ->
  (forall r', In r' (ranges st) -> ~ (from r < from r' <= to r)) ->
  let edit := mkChange (from r - 1) (from r) (plainFor st (charBefore st r)) in
  (forall acc, backspaceForRange st acc r = backspaceForRange st acc (cursor (from r)))
  /\ exists cs d',
       handleBackspace st = (true, Some cs)
       /\ cs = flat_map (backspaceEdits st) pre ++ [edit]
                ++ flat_map (backspaceEdits st) post
       /\ applyChanges (doc st) cs = Some d'
       /\ sliceString d' (from r - 1) (from r) = plainFor st (charBefore st r)
       /\ sliceString d' (from r) (to r) = sliceDoc st (from r) (to r).
Proof.
  intros Ha Hr Hin Hs Hf Ht Hd Hfree edit.
  split; [reflexivity|].
  assert (Hrin : In r (ranges st)) by (rewrite Hr; apply in_elt).
  pose proof (backspace_changes_unit st Hin) as Hu.
  exists (flat_map (backspaceEdits st) (ranges st)),
         (applyLastFirst (doc st) (flat_map (backspaceEdits st) (ranges st))).
  split; [|split; [|split; [|split]]].
  - rewrite handleBackspace_active by assumption. f_equal.
    apply existsb_exists. exists r. split; [assumption|].
    rewrite backspaceOne_directional by (assumption || lia). reflexivity.
  - rewrite Hr, flat_map_app. cbn [flat_map]. unfold backspaceEdits at 2.
    rewrite backspaceOne_directional by (assumption || lia). reflexivity.
  - unfold applyChanges. rewrite backspace_ascending; try assumption; try lia.
    + reflexivity.
    + intros r' Hr'. specialize (Hin r' Hr'). lia.
    + intros r' Hr'. specialize (Hin r' Hr'). lia.
  - rewrite charBefore_after_backspace by (assumption || lia). now rewrite Hd.
  - apply sliceString_untouched; try assumption; try lia.
    intros c Hc Hspan. apply in_flat_map in Hc as (r' & Hr' & Hc).
    apply backspaceEdits_In in Hc as (_ & _ & ->). simpl in Hspan.
    apply (Hfree r' Hr'). lia.
Qed.

Lemma handleBackspace_selection_witness :
  exists cs d',
    handleBackspace selectedWord = (true, Some cs)
    /\ cs = [] ++ [ mkChange 0 1 dquote ] ++ []
    /\ applyChanges (doc selectedWord) cs = Some d'
    /\ sliceString d' (1 - 1) 1 = dquote
    /\ sliceString d' 1 4 = lit "say".
Proof.
  apply (handleBackspace_selection selectedWord [] (mkRange 1 4) []).
  - reflexivity.
  - reflexivity.
  - intros r [<-|[]]. vm_compute. split; discriminate.
  - repeat constructor.
  - simpl. lia.
  - vm_compute. discriminate.
  - reflexivity.
  - intros r [<-|[]]. simpl. lia.
Defined.

(** ** The quote key *)

Lemma includes_single (s : jsstring) (ch : N) :
  includes s [ch] = existsb (N.eqb ch) s.
Proof.
  induction s as [|x s IH]; simpl; [reflexivity|].
  rewrite IH, (N.eqb_sym x ch). now destruct (ch =? x)%N, s.
Qed.

Lemma startChars_opensQuote (ch : N) : includes startChars [ch] = opensQuote ch.
Proof. apply includes_single. Qed.

(** At the start of the document there is no character before the cursor,
    and the empty string is included in every string. *)
Lemma charBefore_start (st : EditorState) (c : SelectionRange) :
  from c = 0 -> charBefore st c = [].
Proof.
  intros E. unfold charBefore, sliceDoc, sliceString. rewrite E. cbv zeta.
  pose proof (len_nonneg (doc st)).
  replace (Z.max 0 (Z.min (len (doc st)) (0 - 1))) with 0 by lia.
  replace (Z.max 0 (Z.min (len (doc st)) 0)) with 0 by lia.
  reflexivity.
Qed.

Lemma charBefore_single (st : EditorState) (c : SelectionRange) :
  0 < from c <= len (doc st) ->
  exists ch, precedingChar st c = Some ch /\ charBefore st c = [ch].
Proof.
  intros Hc. unfold precedingChar.
  destruct (Z.eqb_spec (from c) 0); [lia|].
  destruct (nth_error (doc st) (Z.to_nat (from c - 1))) as [ch|] eqn:En.
  - exists ch. split; [reflexivity|].
    apply nth_error_split in En as (l1 & l2 & Ed & El).
    unfold charBefore, sliceDoc, sliceString. cbv zeta.
    replace (Z.max 0 (Z.min (len (doc st)) (from c - 1))) with (from c - 1) by lia.
    replace (Z.max (from c - 1) (Z.min (len (doc st)) (from c))) with (from c) by lia.
    rewrite Ed, <- El, skipn_app, skipn_all, Nat.sub_diag.
    replace (Z.to_nat (from c - (from c - 1))) with 1%nat by lia.
    reflexivity.
  - apply nth_error_None in En. unfold len in Hc. lia.
Qed.

(** The glyph chosen by the callback for a cursor. *)
Lemma quoteForRange_cursor (st : EditorState) (start end_ : jsstring)
    (c : SelectionRange) :
  empty c = true -> 0 <= from c <= len (doc st) ->
  quoteForRange st [start; end_] c =
    Some (mkUpdate (cursor (from c + len (glyphAt st c start end_)))
                   (mkChange (from c) (from c) (glyphAt st c start end_))).
Proof.
  intros He Hc. unfold quoteForRange. rewrite He.
  apply Z.eqb_eq in He. rewrite <- He. fold (charBefore st c).
  destruct (Z.eq_dec (from c) 0) as [E|E].
  - rewrite charBefore_start by assumption.
    unfold glyphAt, precedingChar. rewrite E. reflexivity.
  - destruct (charBefore_single st c) as (ch & Hp & Hb); [lia|].
    rewrite Hb, startChars_opensQuote. unfold glyphAt. rewrite Hp.
    now destruct (opensQuote ch).
Qed.

(** With both segments present the callback raises no exception. *)
Lemma quoteForRange_defined (st : EditorState) (start end_ : jsstring)
    (r : SelectionRange) :
  exists u, quoteForRange st [start; end_] r = Some u.
Proof.
  unfold quoteForRange, segment. destruct (empty r).
  - destruct (includes startChars (sliceDoc st (from r - 1) (from r)));
      cbn [nth_error]; eexists; reflexivity.
  - cbn [nth_error]. eexists; reflexivity.
Qed.

Lemma changeByRange_defined (f : SelectionRange -> option RangeUpdate)
    (rs : list SelectionRange) :
  (forall r, exists u, f r = Some u) ->
  exists us, changeByRange f rs = Some us
             /\ forall i r, nth_error rs i = Some r -> nth_error us i = f r.
Proof.
  intros Hf. induction rs as [|r rs (us & Hus & Hn)]; simpl.
  - exists []. split; [reflexivity|]. intros [|i] r; discriminate.
  - destruct (Hf r) as (u & Hu). rewrite Hu, Hus. exists (u :: us).
    split; [reflexivity|]. intros [|i] r'; simpl.
    + intros [= <-]. now rewrite Hu.
    + apply Hn.
Qed.

(** C7.  For an empty cursor, with autocorrect active and the pair
    [start .. end_] of the quote key: the glyph inserted at the cursor is
    [start] when the cursor is at the start of the document or the one
    character before it is a space, [(], [[], [{], a hyphen, an en dash or an
    em dash, and [end_] after any other character; the new cursor is right
    behind the inserted glyph. *)
Theorem handleQuote_cursor (quote : jsstring) (st : EditorState)
    (start end_ : jsstring) (i : nat) (c : SelectionRange) :
  active (autocorrect st) = true ->
  quotesFor quote st = [start; end_] ->
  nth_error (ranges st) i = Some c ->
  empty c = true ->
  0 <= from c <= len (doc st) ->
  (precedingChar st c = None <-> from c = 0)
  /\ exists us,
       handleQuote quote st = Some (true, Some us)
       /\ nth_error us i =
            Some (mkUpdate (cursor (from c + len (glyphAt st c start end_)))
                           (mkChange (from c) (from c) (glyphAt st c start end_))).
Proof.
  intros Ha Hq Hi He Hc. split.
  - unfold precedingChar. destruct (Z.eqb_spec (from c) 0) as [E|E].
    + tauto.
    + destruct (charBefore_single st c) as (ch & Hp & _); [lia|].
      unfold precedingChar in Hp. destruct (Z.eqb_spec (from c) 0); [lia|].
      rewrite Hp. split; [discriminate | contradiction].
  - unfold handleQuote. rewrite Ha, Hq. simpl negb. cbv iota zeta.
    destruct (changeByRange_defined (quoteForRange st [start; end_]) (ranges st)
                (quoteForRange_defined st start end_)) as (us & Hus & Hn).
    rewrite Hus. exists us. split; [reflexivity|].
    rewrite (Hn i c Hi). now apply quoteForRange_cursor.
Qed.

Lemma handleQuote_cursor_witness :
  exists us,
    handleQuote dquote threeCursors = Some (true, Some us)
    /\ nth_error us 1 = Some (mkUpdate (cursor 4) (mkChange 3 3 [8220%N])).
Proof.
  apply (handleQuote_cursor dquote threeCursors [8220%N] [8221%N] 1 (cursor 3)).
  - reflexivity.
  - reflexivity.
  - reflexivity.
  - reflexivity.
  - vm_compute. split; discriminate.
Defined.

(** The claim C4 as it stands fails: with autocorrect switched off the
    handler returns false. *)
Lemma handleQuote_switched_off :
  handleQuote dquote switchedOff = Some (false, None)
  /\ ~ exists tr, handleQuote dquote switchedOff = Some (true, tr).
Proof.
  split; [reflexivity|]. intros (tr & H). discriminate H.
Qed.

(** C4, amended.  With both segments of the pair present, the handler
    returns true exactly when autocorrect is active; it dispatches a
    transaction when it is active and nothing when it is not. *)
Theorem handleQuote_handled (quote : jsstring) (st : EditorState)
    (start end_ : jsstring) :
  quotesFor quote st = [start; end_] ->
  exists tr, handleQuote quote st = Some (active (autocorrect st), tr)
             /\ (tr = None <-> active (autocorrect st) = false).
Proof.
  intros Hq. unfold handleQuote. destruct (active (autocorrect st)); simpl.
  - rewrite Hq.
    destruct (changeByRange_defined (quoteForRange st [start; end_]) (ranges st)
                (quoteForRange_defined st start end_)) as (us & Hus & _).
    rewrite Hus. exists (Some us). split; [reflexivity|]. split; discriminate.
  - exists None. split; [reflexivity|]. tauto.
Qed.

Lemma handleQuote_handled_witness :
  exists tr, handleQuote squote threeCursors = Some (true, tr)
             /\ (tr = None <-> true = false).
Proof.
  apply (handleQuote_handled squote threeCursors [8216%N] [8217%N]).
  reflexivity.
Defined.

(** The callback for a selection: both glyphs are put around the text; the
    new range begins behind the start glyph and ends at the old end plus the
    length of the end glyph. *)
Lemma quoteForRange_selection (st : EditorState) (q0 q1 : jsstring)
    (r : SelectionRange) :
  empty r = false ->
  quoteForRange st [q0; q1] r =
    Some (mkUpdate (range (from r + len q0) (to r + len q1))
                   (mkChange (from r) (to r)
                             (q0 ++ sliceDoc st (from r) (to r) ++ q1))).
Proof. intros He. unfold quoteForRange. rewrite He. reflexivity. Qed.

Lemma sliceString_length (d : jsstring) (f t : Z) :
  0 <= f <= t -> t <= len d -> len (sliceString d f t) = t - f.
Proof.
  intros Hf Ht. unfold sliceString, len in *. cbv zeta.
  rewrite length_firstn, length_skipn. lia.
Qed.

(** After the change the selected text stands behind the start glyph: it
    begins at [from + |q0|] and ends at [to + |q0|]. *)
Lemma wrapped_text_position (d q0 q1 : jsstring) (f t : Z) :
  0 <= f <= t -> t <= len d ->
  sliceString (applyChange d (mkChange f t (q0 ++ sliceString d f t ++ q1)))
              (f + len q0) (t + len q0)
    = sliceString d f t.
Proof.
  intros Hf Ht.
  pose proof (sliceString_length d f t Hf Ht) as Hx.
  set (x := sliceString d f t) in *.
  pose proof (len_nonneg q0) as H0. pose proof (len_nonneg q1) as H1.
  unfold applyChange. simpl.
  assert (Ha : List.length (firstn (Z.to_nat f) d ++ q0) = Z.to_nat (f + len q0)).
  { rewrite length_app, length_firstn. unfold len in *. lia. }
  unfold sliceString at 1. cbv zeta.
  replace (firstn (Z.to_nat f) d ++ (q0 ++ x ++ q1) ++ skipn (Z.to_nat t) d)
    with ((firstn (Z.to_nat f) d ++ q0) ++ x ++ (q1 ++ skipn (Z.to_nat t) d))
    by (now rewrite <- !app_assoc).
  set (a := firstn (Z.to_nat f) d ++ q0) in *.
  set (b := q1 ++ skipn (Z.to_nat t) d).
  assert (Hl : len (a ++ x ++ b) = f + len q0 + (t - f) + len b).
  { rewrite !len_app, Hx. unfold len at 1. rewrite Ha. lia. }
  pose proof (len_nonneg b) as Hb.
  rewrite Hl.
  replace (Z.max 0 (Z.min (f + len q0 + (t - f) + len b) (f + len q0)))
    with (f + len q0) by lia.
  replace (Z.max (f + len q0) (Z.min (f + len q0 + (t - f) + len b) (t + len q0)))
    with (t + len q0) by lia.
  rewrite <- Ha, skipn_app, skipn_all, Nat.sub_diag. simpl.
  replace (Z.to_nat (t + len q0 - (f + len q0))) with (List.length x)
    by (unfold len in Hx; lia).
  rewrite firstn_app, Nat.sub_diag, firstn_all. simpl. apply app_nil_r.
Qed.

(** With glyphs of one length the new range is the wrapped text. *)
Lemma wrapped_range_equal_glyphs (q0 q1 : jsstring) (r : SelectionRange) :
  from r <= to r -> len q0 = len q1 ->
  range (from r + len q0) (to r + len q1) = mkRange (from r + len q0) (to r + len q0).
Proof. intros Hr Hq. unfold range. rewrite <- Hq. f_equal; lia. Qed.

(** C3 on a pair whose glyphs differ in length.  The selection ["ab"] is
    wrapped into a start glyph of two code units and an end glyph of one.
    The glyphs are put around the text and the text stands at [2,4) of the
    new document, but the new selection is [2,3) and covers ["a"] only: its
    end was moved by the length of the end glyph. *)
Theorem handleQuote_wrap_uneven :
  let edit := mkChange 0 2 ([171; 160]%N ++ lit "ab" ++ [187%N]) in
  handleQuote dquote wrapState = Some (true, Some [ mkUpdate (mkRange 2 3) edit ])
  /\ sliceDoc wrapState 0 2 = lit "ab"
  /\ sliceString (applyChange (doc wrapState) edit) 2 4 = lit "ab"
  /\ sliceString (applyChange (doc wrapState) edit) 2 3 = lit "a".
Proof. repeat split. Qed.

(** Neither the backspace handler nor the quote handler reads the syntax
    tree. *)
Lemma handleBackspace_ignores_tree (st : EditorState) (tree : Z -> string) :
  handleBackspace (withTree st tree) = handleBackspace st.
Proof. reflexivity. Qed.

Lemma handleQuote_ignores_tree (quote : jsstring) (st : EditorState)
    (tree : Z -> string) :
  handleQuote quote (withTree st tree) = handleQuote quote st.
Proof. reflexivity. Qed.

(** C6 on a cursor inside inline code.  The replacement scan consults the
    classifier: the arrow that it replaces in plain text stays when every
    position is inline code.  The other two handlers do not: the position of
    the cursor is protected, yet backspace replaces the curly quote before it
    and the quote key inserts a closing curly quote. *)
Theorem handlers_inside_code :
  handleReplacement arrowState = (false, Some [ mkChange 0 2 [8594%N] ])
  /\ handleReplacement (withTree arrowState (nodeName insideCode)) = (false, Some [])
  /\ posInProtectedNode insideCode 3 = true
  /\ handleBackspace insideCode = (true, Some [ mkChange 2 3 dquote ])
  /\ handleQuote dquote insideCode
       = Some (true, Some [ mkUpdate (cursor 4) (mkChange 3 3 [8221%N]) ]).
Proof. repeat split. Qed.

(** * Further properties of the handlers *)

(** ** The replacement scan *)

(** X1.  [handleReplacement] never reports the key as handled, so that the
    editor inserts the space or line break itself; it dispatches a
    transaction unless autocorrect is inactive or the table is empty. *)
Theorem handleReplacement_result (st : EditorState) :
  fst (handleReplacement st) = false
  /\ (snd (handleReplacement st) = None
      <-> active (autocorrect st) = false \/ replacements (autocorrect st) = []).
Proof.
  unfold handleReplacement. cbv zeta.
  destruct (active (autocorrect st)); simpl.
  - destruct (replacements (autocorrect st)) as [|x l]; simpl.
    + split; [reflexivity|]. split; auto.
    + split; [reflexivity|]. split; [discriminate|]. intros [H|H]; discriminate.
  - split; [reflexivity|]. split; auto.
Qed.

(** X2.  The sorted copy of the table has the rules of the table, each as
    often as the table has it, in descending key length, and rules of one
    key length are in the order of the table. *)
Theorem sortedReplacements_stable (st : EditorState) :
  Permutation (replacements (autocorrect st)) (sortedReplacements st)
  /\ descending (sortedReplacements st)
  /\ forall n, filter (fun x => klen x =? n) (sortedReplacements st)
               = filter (fun x => klen x =? n) (replacements (autocorrect st)).
Proof.
  unfold sortedReplacements.
  assert (Hperm : forall x l, Permutation (x :: l) (insertBy byKeyLengthDesc x l)).
  { intros x l. induction l as [|y l IH]; simpl; [reflexivity|].
    destruct (0 <? byKeyLengthDesc x y); [|reflexivity].
    rewrite perm_swap. now constructor. }
  assert (Hfilter : forall n x l,
            filter (fun z => klen z =? n) (insertBy byKeyLengthDesc x l)
            = filter (fun z => klen z =? n) (x :: l)).
  { intros n x l. induction l as [|y l IH]; [reflexivity|].
    cbn [insertBy]. destruct (Z.ltb_spec 0 (byKeyLengthDesc x y)) as [Hlt|Hge];
      [|reflexivity].
    cbn [filter] in *. rewrite IH.
    destruct (Z.eqb_spec (klen x) n), (Z.eqb_spec (klen y) n); try reflexivity.
    unfold byKeyLengthDesc, klen in *. lia. }
  split; [|split].
  - induction (replacements (autocorrect st)) as [|x l IH]; simpl; [constructor|].
    rewrite <- Hperm. now constructor.
  - apply sort_descending.
  - intros n. induction (replacements (autocorrect st)) as [|x l IH]; [reflexivity|].
    cbn [sort fold_right]. fold (sort byKeyLengthDesc l).
    rewrite Hfilter. cbn [filter]. now rewrite IH.
Qed.

(** X3.  For a table that is not empty, [maxKeyLength] is the length of its
    longest key: no key is longer, and some key has that length. *)
Theorem maxKeyLength_longest (st : EditorState) :
  replacements (autocorrect st) <> [] ->
  (forall x, In x (replacements (autocorrect st)) -> len (key x) <= maxKeyLength st)
  /\ exists x, In x (replacements (autocorrect st)) /\ len (key x) = maxKeyLength st.
Proof.
  intros Hne. split; [apply maxKeyLength_bound|].
  unfold maxKeyLength, sortedReplacements.
  destruct (sort byKeyLengthDesc (replacements (autocorrect st))) as [|z l] eqn:Es.
  - destruct (replacements (autocorrect st)) as [|x t]; [contradiction|].
    assert (Hx : In x (sort byKeyLengthDesc (x :: t))) by (apply sort_In; now left).
    rewrite Es in Hx. destruct Hx.
  - exists z. split; [|reflexivity].
    apply (proj1 (sort_In z _)). rewrite Es. now left.
Qed.

Lemma maxKeyLength_longest_witness :
  exists x, In x mixedRules /\ len (key x) = 3.
Proof.
  apply (maxKeyLength_longest
           (mkState [] [] (mkAutocorrect true mixedRules curlyQuotes) plainText)).
  discriminate.
Defined.

(** X4.  The slice that the scan reads, of at most [maxKeyLength] characters
    before the cursor, loses no match: a key of the table is a suffix of
    the slice exactly when it is a suffix of the whole text before the
    cursor. *)
Theorem scan_window_sufficient (st : EditorState) (c : SelectionRange)
    (x : Replacement) :
  0 <= from c <= len (doc st) ->
  In x (replacements (autocorrect st)) ->
  endsWith (sliceDoc st (Z.max (from c - maxKeyLength st) 0) (from c)) (key x)
    = endsWith (sliceDoc st 0 (from c)) (key x).
Proof.
  intros Hc Hx. apply (slice_matchesAt st (from c) (maxKeyLength st) x Hc).
  now apply maxKeyLength_bound.
Qed.

Lemma scan_window_sufficient_witness :
  endsWith (sliceDoc copyrightState (Z.max (5 - maxKeyLength copyrightState) 0) 5)
           (lit "(c)")
    = endsWith (sliceDoc copyrightState 0 5) (lit "(c)").
Proof.
  apply (scan_window_sufficient copyrightState (cursor 5)
           (mkReplacement (lit "(c)") [169%N])).
  - vm_compute. split; discriminate.
  - now left.
Defined.

Lemma endsWith_split (s k : jsstring) :
  endsWith s k = true ->
  s = firstn (List.length s - List.length k) s ++ k
  /\ (List.length k <= List.length s)%nat.
Proof.
  unfold endsWith. intros H. apply andb_true_iff in H as [Hl He].
  apply Nat.leb_le in Hl. apply eqb_eq in He. split; [|assumption].
  transitivity (firstn (List.length s - List.length k) s
                ++ skipn (List.length s - List.length k) s).
  - symmetry. apply firstn_skipn.
  - f_equal. exact He.
Qed.

(** Where a change of the scan comes from. *)
Lemma replacementEdits_sound (st : EditorState) (c : SelectionRange) (e : ChangeSpec) :
  0 <= from c <= len (doc st) ->
  In e (replacementEdits st c) ->
  scanned st c = true
  /\ exists r, In r (replacements (autocorrect st))
               /\ matchesAt st (from c) r = true
               /\ posInProtectedNode st (from c - klen r) = false
               /\ e = ruleEdit c r.
Proof.
  intros Hc. unfold replacementEdits, replacementForRange, scanned.
  destruct (empty c); cbn [negb andb]; [|intros []].
  destruct (posInProtectedNode st (from c)); cbn [negb andb]; [intros []|].
  destruct (arr_includes [lit "---"; lit "..."] (lineAt_text st (from c)));
    cbn [negb andb]; [intros []|].
  rewrite scanRules_find. cbn [app].
  destruct (find _ (sortedReplacements st)) as [r|] eqn:Fr; [|intros []].
  apply find_some in Fr as [Hr Hm].
  apply (proj1 (sort_In _ _)) in Hr.
  rewrite (slice_matchesAt st (from c) (maxKeyLength st) r Hc
             (maxKeyLength_bound st r Hr)) in Hm.
  destruct (posInProtectedNode st (from c - klen r)) eqn:Hp; [intros []|].
  intros [<-|[]]. split; [reflexivity|]. exists r. auto.
Qed.

Lemma handleReplacement_dispatched (st : EditorState) (b : bool)
    (cs : list ChangeSpec) :
  handleReplacement st = (b, Some cs) ->
  cs = flat_map (replacementEdits st) (ranges st).
Proof.
  unfold handleReplacement. cbv zeta.
  destruct (negb (active (autocorrect st))
            || (List.length (replacements (autocorrect st)) =? 0)%nat);
    [discriminate|].
  rewrite replacement_fold. now intros [= _ <-].
Qed.

(** X5.  Every change that [handleReplacement] dispatches rewrites one key
    of the table at one scanned cursor of the selection: the document is
    [p ++ key ++ rest] with the cursor right behind the key, and the change
    turns it into [p ++ value ++ rest]. *)
Theorem replacement_rewrites_key (st : EditorState) (b : bool)
    (cs : list ChangeSpec) (e : ChangeSpec) :
  (forall c, In c (ranges st) -> 0 <= from c <= len (doc st)) ->
  handleReplacement st = (b, Some cs) ->
  In e cs ->
  exists c r p rest,
    In c (ranges st) /\ scanned st c = true
    /\ In r (replacements (autocorrect st))
    /\ doc st = p ++ key r ++ rest
    /\ len (p ++ key r) = from c
    /\ e = mkChange (from c - len (key r)) (from c) (value r)
    /\ applyChange (doc st) e = p ++ value r ++ rest.
Proof.
  intros Hr Hh He. apply handleReplacement_dispatched in Hh. subst cs.
  apply in_flat_map in He as (c & Hin & He).
  pose proof (Hr c Hin) as Hc.
  apply replacementEdits_sound in He as (Hs & r & Hrin & Hm & _ & ->); [|assumption].
  unfold matchesAt, textBefore in Hm. rewrite sliceDoc_inrange in Hm by lia.
  simpl skipn in Hm. apply endsWith_split in Hm as [Hsplit Hle].
  rewrite length_firstn in Hsplit, Hle.
  set (f := Z.to_nat (from c)) in *.
  set (k := List.length (key r)) in *.
  assert (Hf : (Nat.min f (List.length (doc st)) = f)%nat) by (unfold f, len in *; lia).
  rewrite Hf in *.
  set (p := firstn (f - k) (firstn f (doc st))) in *.
  assert (Hp : List.length p = (f - k)%nat).
  { unfold p. rewrite !length_firstn. lia. }
  assert (Hdoc : doc st = p ++ key r ++ skipn f (doc st)).
  { rewrite app_assoc, <- Hsplit. symmetry. apply firstn_skipn. }
  exists c, r, p, (skipn f (doc st)).
  repeat split; try assumption.
  - rewrite len_app. unfold len. rewrite Hp. fold k. unfold f in *. lia.
  - unfold applyChange, ruleEdit, klen, len. simpl. fold k.
    replace (Z.to_nat (from c - Z.of_nat k)) with (f - k)%nat by (unfold f; lia).
    fold f. f_equal.
    rewrite Hdoc at 1. rewrite <- Hp, firstn_app, Nat.sub_diag, firstn_all.
    simpl. apply app_nil_r.
Qed.

Lemma replacement_rewrites_key_witness :
  exists c r p rest,
    In c (ranges copyrightState) /\ scanned copyrightState c = true
    /\ In r (replacements (autocorrect copyrightState))
    /\ doc copyrightState = p ++ key r ++ rest
    /\ len (p ++ key r) = from c
    /\ mkChange 2 5 [169%N] = mkChange (from c - len (key r)) (from c) (value r)
    /\ applyChange (doc copyrightState) (mkChange 2 5 [169%N]) = p ++ value r ++ rest.
Proof.
  apply (replacement_rewrites_key copyrightState false [ mkChange 2 5 [169%N] ]).
  - intros c [<-|[]]. vm_compute. split; discriminate.
  - reflexivity.
  - now left.
Defined.

(** X6.  Every change that [handleReplacement] dispatches lies in the
    document, ends at a cursor, and neither begins nor ends in a protected
    node. *)
Theorem replacement_changes_in_bounds (st : EditorState) (b : bool)
    (cs : list ChangeSpec) (e : ChangeSpec) :
  (forall c, In c (ranges st) -> 0 <= from c <= len (doc st)) ->
  handleReplacement st = (b, Some cs) ->
  In e cs ->
  0 <= cfrom e <= cto e /\ cto e <= len (doc st)
  /\ posInProtectedNode st (cfrom e) = false
  /\ posInProtectedNode st (cto e) = false
  /\ In (cursor (cto e)) (ranges st).
Proof.
  intros Hr Hh He. apply handleReplacement_dispatched in Hh. subst cs.
  apply in_flat_map in He as (c & Hin & He).
  pose proof (Hr c Hin) as Hc.
  apply replacementEdits_sound in He as (Hs & r & Hrin & Hm & Hp & ->); [|assumption].
  unfold scanned in Hs. apply andb_true_iff in Hs as [Hs _].
  apply andb_true_iff in Hs as [He Hpc]. apply negb_true_iff in Hpc.
  unfold matchesAt in Hm. apply endsWith_split in Hm as [_ Hle].
  rewrite textBefore_length in Hle by assumption.
  pose proof (len_nonneg (key r)) as Hk.
  unfold ruleEdit, klen, len in *. simpl.
  repeat split; try assumption; try lia.
  unfold empty in He. apply Z.eqb_eq in He.
  destruct c as [f t]; simpl in *. subst t. exact Hin.
Qed.

Lemma replacement_changes_in_bounds_witness :
  0 <= 2 <= 5 /\ 5 <= len (doc copyrightState)
  /\ posInProtectedNode copyrightState 2 = false
  /\ posInProtectedNode copyrightState 5 = false
  /\ In (cursor 5) (ranges copyrightState).
Proof.
  apply (replacement_changes_in_bounds copyrightState false [ mkChange 2 5 [169%N] ]
           (mkChange 2 5 [169%N])).
  - intros c [<-|[]]. vm_compute. split; discriminate.
  - reflexivity.
  - now left.
Defined.

(** X7.  When no key of the table is a suffix of the text before any range
    of the selection, [handleReplacement] dispatches an empty list of
    changes. *)
Theorem replacement_no_match (st : EditorState) :
  active (autocorrect st) = true ->
  replacements (autocorrect st) <> [] ->
  (forall c, In c (ranges st) -> 0 <= from c <= len (doc st)) ->
  (forall c x, In c (ranges st) -> In x (replacements (autocorrect st)) ->
               endsWith (sliceDoc st 0 (from c)) (key x) = false) ->
  handleReplacement st = (false, Some []).
Proof.
  intros Ha Hne Hr Hno. rewrite handleReplacement_active by assumption.
  do 2 f_equal. apply flat_map_nil. intros c Hin.
  destruct (replacementEdits st c) as [|e l] eqn:Ee; [reflexivity|].
  assert (He : In e (replacementEdits st c)) by (rewrite Ee; now left).
  apply replacementEdits_sound in He as (_ & r & Hrin & Hm & _); [|now apply Hr].
  unfold matchesAt, textBefore in Hm. rewrite (Hno c r Hin Hrin) in Hm. discriminate.
Qed.

Lemma replacement_no_match_witness :
  handleReplacement noArrow = (false, Some []).
Proof.
  apply (replacement_no_match noArrow).
  - reflexivity.
  - discriminate.
  - intros c [<-|[<-|[]]]; vm_compute; split; discriminate.
  - intros c x [<-|[<-|[]]] [<-|[<-|[]]]; reflexivity.
Defined.

(** ** Backspace *)

Lemma backspaceOne_handled (st : EditorState) (r : SelectionRange) :
  fst (backspaceOne st r) = true
  <-> from r <> 0 /\ directional st (charBefore st r) = true.
Proof.
  rewrite backspaceOne_cases. unfold directional.
  destruct (Z.eqb_spec (from r) 0) as [E|E]; cbn [fst].
  - split; [discriminate | intros [H _]; contradiction].
  - destruct (primaryGlyph st (charBefore st r)); cbn [fst orb]; [tauto|].
    destruct (secondaryGlyph st (charBefore st r)); cbn [fst]; [tauto|].
    split; [discriminate | intros [_ H]; discriminate].
Qed.

Lemma handleBackspace_dispatched (st : EditorState) (b : bool)
    (cs : list ChangeSpec) :
  handleBackspace st = (b, Some cs) ->
  active (autocorrect st) = true
  /\ cs = flat_map (backspaceEdits st) (ranges st).
Proof.
  destruct (active (autocorrect st)) eqn:Ha.
  - rewrite handleBackspace_active by assumption. now intros [= _ <-].
  - unfold handleBackspace. rewrite Ha. discriminate.
Qed.

(** X8.  [handleBackspace] returns true exactly when autocorrect is active
    and some range of the selection, not at the start of the document, has a
    directional quote before it; it dispatches a transaction exactly when
    autocorrect is active. *)
Theorem handleBackspace_true_iff (st : EditorState) :
  (fst (handleBackspace st) = true
     <-> active (autocorrect st) = true
         /\ exists r, In r (ranges st) /\ from r <> 0
                      /\ directional st (charBefore st r) = true)
  /\ (snd (handleBackspace st) = None <-> active (autocorrect st) = false).
Proof.
  destruct (active (autocorrect st)) eqn:Ha.
  - rewrite handleBackspace_active by assumption. cbn [fst snd]. split.
    + rewrite existsb_exists. split.
      * intros (r & Hr & H). apply backspaceOne_handled in H. split; [reflexivity|].
        exists r. tauto.
      * intros (_ & r & Hr & H). exists r. split; [assumption|].
        now apply backspaceOne_handled.
    + split; discriminate.
  - unfold handleBackspace. rewrite Ha. cbn [negb fst snd]. split.
    + split; [discriminate | intros [H _]; discriminate].
    + tauto.
Qed.

Lemma StronglySorted_app_intro {A} (R : A -> A -> Prop) (l1 l2 : list A) :
  StronglySorted R l1 -> StronglySorted R l2 ->
  (forall a b, In a l1 -> In b l2 -> R a b) ->
  StronglySorted R (l1 ++ l2).
Proof.
  induction 1 as [|a l1 Hl1 IH Ha]; intros H2 H12; simpl; [assumption|].
  constructor.
  - apply IH; [assumption|]. intros x y Hx Hy. apply H12; [now right | assumption].
  - apply Forall_app. split; [assumption|].
    apply Forall_forall. intros y Hy. apply H12; [now left | assumption].
Qed.

Lemma backspaceEdits_short (st : EditorState) (r : SelectionRange) :
  StronglySorted (fun a b => cto a <= cfrom b) (backspaceEdits st r).
Proof.
  unfold backspaceEdits. rewrite backspaceOne_cases.
  destruct (from r =? 0); cbn [snd]; [constructor|].
  destruct (primaryGlyph st (charBefore st r)); cbn [snd];
    [repeat constructor|].
  destruct (secondaryGlyph st (charBefore st r)); cbn [snd]; repeat constructor.
Qed.

(** X9.  For a selection inside the document whose ranges begin at strictly
    ascending positions, the changes that [handleBackspace] dispatches each
    replace one character of the document by one character, and they are in
    ascending order without overlap. *)
Theorem backspace_changes_disjoint (st : EditorState) (b : bool)
    (cs : list ChangeSpec) :
  (forall r, In r (ranges st) -> 0 <= from r <= len (doc st)) ->
  StronglySorted (fun a b => from a < from b) (ranges st) ->
  handleBackspace st = (b, Some cs) ->
  Forall (unitChange (len (doc st))) cs
  /\ StronglySorted (fun a b => cto a <= cfrom b) cs.
Proof.
  intros Hr Hs Hh. apply handleBackspace_dispatched in Hh as [_ ->].
  split; [now apply backspace_changes_unit|].
  clear Hr. induction Hs as [|r rs Hrs IH Hlt]; cbn [flat_map]; [constructor|].
  apply StronglySorted_app_intro.
  - apply backspaceEdits_short.
  - exact IH.
  - intros a c Ha Hc. apply in_flat_map in Hc as (r' & Hr' & Hc).
    apply backspaceEdits_In in Ha as (_ & _ & ->).
    apply backspaceEdits_In in Hc as (_ & _ & ->).
    rewrite Forall_forall in Hlt. specialize (Hlt r' Hr'). simpl. lia.
Qed.

Lemma backspace_changes_disjoint_witness :
  Forall (unitChange (len (doc quotedWord))) [ mkChange 0 1 dquote; mkChange 4 5 dquote ]
  /\ StronglySorted (fun a b => cto a <= cfrom b)
                    [ mkChange 0 1 dquote; mkChange 4 5 dquote ].
Proof.
  apply (backspace_changes_disjoint quotedWord true).
  - intros r [<-|[<-|[<-|[]]]]; vm_compute; split; discriminate.
  - repeat constructor.
  - reflexivity.
Defined.

(** X10.  For a selection inside the document whose ranges begin at
    strictly ascending positions, the changes of [handleBackspace] keep the
    length of the document, and every range of the selection is at the same
    position after them. *)
Theorem backspace_keeps_positions (st : EditorState) (b : bool)
    (cs : list ChangeSpec) (tree' : Z -> string) :
  (forall r, In r (ranges st) -> 0 <= from r <= len (doc st)) ->
  StronglySorted (fun a b => from a < from b) (ranges st) ->
  handleBackspace st = (b, Some cs) ->
  exists st',
    dispatch st cs tree' = Some st'
    /\ len (doc st') = len (doc st)
    /\ ranges st' = ranges st.
Proof.
  intros Hr Hs Hh. apply handleBackspace_dispatched in Hh as [_ ->].
  eexists. split; [now apply backspace_dispatch|].
  cbn [doc ranges]. split; [|reflexivity].
  apply applyLastFirst_unit_len. now apply backspace_changes_unit.
Qed.

Lemma backspace_keeps_positions_witness :
  exists st',
    dispatch quotedWord [ mkChange 0 1 dquote; mkChange 4 5 dquote ] plainText = Some st'
    /\ len (doc st') = len (doc quotedWord)
    /\ ranges st' = ranges quotedWord.
Proof.
  apply (backspace_keeps_positions quotedWord true).
  - intros r [<-|[<-|[<-|[]]]]; vm_compute; split; discriminate.
  - repeat constructor.
  - reflexivity.
Defined.

(** X11.  For a selection inside the document whose ranges begin at
    strictly ascending positions, the document after the changes of
    [handleBackspace], character by character: the character before a
    position is the plain quote when a range begins at that position and the
    old character is a directional quote; every other character is the old
    one. *)
Theorem backspace_document_after (st : EditorState) (b : bool)
    (cs : list ChangeSpec) :
  (forall r, In r (ranges st) -> 0 <= from r <= len (doc st)) ->
  StronglySorted (fun a b => from a < from b) (ranges st) ->
  handleBackspace st = (b, Some cs) ->
  exists d',
    applyChanges (doc st) cs = Some d'
    /\ forall f, 0 < f <= len (doc st) ->
         sliceString d' (f - 1) f =
           if existsb (fun r => from r =? f) (ranges st)
              && directional st (sliceDoc st (f - 1) f)
           then plainFor st (sliceDoc st (f - 1) f)
           else sliceDoc st (f - 1) f.
Proof.
  intros Hr Hs Hh. apply handleBackspace_dispatched in Hh as [_ ->].
  pose proof (backspace_changes_unit st Hr) as Hu.
  exists (applyLastFirst (doc st) (flat_map (backspaceEdits st) (ranges st))).
  split.
  { unfold applyChanges. rewrite backspace_ascending; try assumption; try lia.
    - reflexivity.
    - intros r Hin. specialize (Hr r Hin). lia.
    - intros r Hin. specialize (Hr r Hin). lia. }
  intros f Hf.
  rewrite sliceString_applyLastFirst_unit by assumption.
  destruct (find _ _) as [c|] eqn:Fc.
  - apply find_some in Fc as (Hc & Ec). apply Z.eqb_eq in Ec.
    apply in_flat_map in Hc as (r & Hin & Hc).
    apply backspaceEdits_In in Hc as (_ & Hd & ->). simpl in Ec.
    assert (E : from r = f) by lia.
    unfold charBefore in *. rewrite E in *. simpl insert.
    replace (existsb (fun r0 => from r0 =? f) (ranges st)) with true.
    + now rewrite Hd.
    + symmetry. apply existsb_exists. exists r. split; [assumption|].
      now apply Z.eqb_eq.
  - destruct (existsb (fun r => from r =? f) (ranges st)) eqn:Ex; [|reflexivity].
    destruct (directional st (sliceDoc st (f - 1) f)) eqn:Hd; [|reflexivity].
    exfalso. apply existsb_exists in Ex as (r & Hin & E). apply Z.eqb_eq in E.
    pose proof (find_none _ _ Fc
                  (mkChange (from r - 1) (from r) (plainFor st (charBefore st r)))) as Hn.
    simpl in Hn. rewrite E, Z.eqb_refl in Hn.
    assert (Hc : In (mkChange (f - 1) f (plainFor st (charBefore st r)))
                    (flat_map (backspaceEdits st) (ranges st))).
    { apply in_flat_map. exists r. split; [assumption|].
      unfold backspaceEdits. rewrite backspaceOne_directional.
      - rewrite E. now left.
      - lia.
      - unfold charBefore. now rewrite E. }
    specialize (Hn Hc). discriminate.
Qed.

Lemma backspace_document_after_witness :
  exists d',
    applyChanges (doc quotedWord) [ mkChange 0 1 dquote; mkChange 4 5 dquote ] = Some d'
    /\ forall f, 0 < f <= len (doc quotedWord) ->
         sliceString d' (f - 1) f =
           if existsb (fun r => from r =? f) (ranges quotedWord)
              && directional quotedWord (sliceDoc quotedWord (f - 1) f)
           then plainFor quotedWord (sliceDoc quotedWord (f - 1) f)
           else sliceDoc quotedWord (f - 1) f.
Proof.
  apply (backspace_document_after quotedWord true).
  - intros r [<-|[<-|[<-|[]]]]; vm_compute; split; discriminate.
  - repeat constructor.
  - reflexivity.
Defined.

(** ** The quote key *)

Lemma split_no_sep (sep : N) (s : jsstring) :
  ~ In sep s -> split sep s = [s].
Proof.
  induction s as [|c s IH]; simpl; [reflexivity|]. intros H.
  destruct (N.eqb_spec c sep) as [E|E]; [exfalso; apply H; now left|].
  rewrite IH by (intros F; apply H; now right). reflexivity.
Qed.

Lemma split_app_sep (sep : N) (a b : jsstring) :
  ~ In sep a -> split sep (a ++ sep :: b) = a :: split sep b.
Proof.
  induction a as [|c a IH]; simpl; intros H.
  - now rewrite N.eqb_refl.
  - destruct (N.eqb_spec c sep) as [E|E]; [exfalso; apply H; now left|].
    rewrite IH by (intros F; apply H; now right). reflexivity.
Qed.

Lemma joinWith_cons (sep : N) (a b : jsstring) (l : list jsstring) :
  joinWith sep (a :: b :: l) = a ++ sep :: joinWith sep (b :: l).
Proof. reflexivity. Qed.

Lemma split_join (sep : N) (s : jsstring) :
  joinWith sep (split sep s) = s
  /\ Forall (fun seg => ~ In sep seg) (split sep s)
  /\ split sep s <> [].
Proof.
  induction s as [|c s (Hj & Hf & Hn)]; simpl.
  - repeat split; [repeat constructor; auto | discriminate].
  - destruct (N.eqb_spec c sep) as [E|E].
    + subst c. repeat split; [| constructor; auto | discriminate].
      destruct (split sep s) as [|seg segs]; [contradiction|].
      now rewrite joinWith_cons, Hj.
    + destruct (split sep s) as [|seg segs]; [contradiction|].
      repeat split; [| | discriminate].
      * rewrite <- Hj. destruct segs; reflexivity.
      * inversion Hf as [|? ? Hseg Hsegs]; subst. constructor; [|assumption].
        intros [F|F]; [congruence | contradiction].
Qed.

(** X12.  The two glyphs of a pair are what stands before and behind the
    separator: a configured string splits into exactly [start] and [end_] if
    and only if it is [start], the separator, [end_], with no further
    separator in either. *)
Theorem split_pair_iff (s start end_ : jsstring) :
  split ellipsis s = [start; end_]
  <-> s = start ++ ellipsis :: end_
      /\ ~ In ellipsis start /\ ~ In ellipsis end_.
Proof.
  split.
  - intros H. destruct (split_join ellipsis s) as (Hj & Hf & _).
    rewrite H in Hj, Hf. simpl in Hj.
    inversion Hf as [|? ? Ha Hf']; subst. inversion Hf' as [|? ? Hb _]; subst.
    auto.
  - intros (-> & Ha & Hb). rewrite split_app_sep by assumption.
    now rewrite split_no_sep.
Qed.

Lemma quotesFor_split (quote : jsstring) (st : EditorState) :
  quotesFor quote st = split ellipsis (pairFor quote st).
Proof. unfold quotesFor, pairFor. now destruct (eqb quote dquote). Qed.

Lemma split_In (sep : N) (s : jsstring) :
  In sep s -> exists a b rest, split sep s = a :: b :: rest.
Proof.
  induction s as [|c s IH]; simpl; [intros []|]. intros H.
  destruct (N.eqb_spec c sep) as [E|E].
  - destruct (split_join sep s) as (_ & _ & Hn).
    destruct (split sep s) as [|b rest]; [contradiction|]. now exists [], b, rest.
  - destruct H as [H|H]; [congruence|].
    destruct (IH H) as (a & b & rest & ->). now exists (c :: a), b, rest.
Qed.

Lemma changeByRange_length (f : SelectionRange -> option RangeUpdate)
    (rs : list SelectionRange) (us : list RangeUpdate) :
  changeByRange f rs = Some us -> List.length us = List.length rs.
Proof.
  revert us. induction rs as [|r rs IH]; simpl; intros us.
  - now intros [= <-].
  - destruct (f r); [|discriminate].
    destruct (changeByRange f rs) as [us'|]; [|discriminate].
    intros [= <-]. simpl. now rewrite (IH us').
Qed.

Lemma changeByRange_None (f : SelectionRange -> option RangeUpdate)
    (rs : list SelectionRange) :
  changeByRange f rs = None <-> exists r, In r rs /\ f r = None.
Proof.
  induction rs as [|r rs IH]; simpl.
  - split; [discriminate | intros (r & [] & _)].
  - destruct (f r) as [u|] eqn:Fr.
    + destruct (changeByRange f rs) as [us|].
      * split; [discriminate|]. intros (r' & [<-|Hr'] & H); [congruence|].
        assert (F : Some us = None) by (apply (proj2 IH); now exists r').
        discriminate F.
      * split; [|reflexivity]. intros _.
        destruct (proj1 IH eq_refl) as (r' & Hr' & H). exists r'. auto.
    + split; [|reflexivity]. intros _. exists r. auto.
Qed.

(** The span of the change is the range itself. *)
Lemma quoteForRange_span (st : EditorState) (quotes : list jsstring)
    (r : SelectionRange) (u : RangeUpdate) :
  quoteForRange st quotes r = Some u ->
  cfrom (changes u) = from r /\ cto (changes u) = to r.
Proof.
  unfold quoteForRange. destruct (empty r).
  - destruct (if includes startChars _ then _ else _); [|discriminate].
    now intros [= <-].
  - destruct (segment quotes 0); [|discriminate].
    destruct (segment quotes 1); [|discriminate]. now intros [= <-].
Qed.

(** X13.  When the configured string of the pair contains the separator,
    the quote handler raises no exception: it returns true with one update
    for each range of the selection, in order, and the change of an update
    spans exactly its range. *)
Theorem handleQuote_with_separator (quote : jsstring) (st : EditorState) :
  active (autocorrect st) = true ->
  In ellipsis (pairFor quote st) ->
  exists us,
    handleQuote quote st = Some (true, Some us)
    /\ List.length us = List.length (ranges st)
    /\ forall i r u, nth_error (ranges st) i = Some r -> nth_error us i = Some u ->
                     cfrom (changes u) = from r /\ cto (changes u) = to r.
Proof.
  intros Ha Hin. unfold handleQuote. rewrite Ha. cbn [negb]. cbv zeta.
  rewrite quotesFor_split.
  destruct (split_In ellipsis _ Hin) as (q0 & q1 & rest & ->).
  assert (Hdef : forall r, exists u, quoteForRange st (q0 :: q1 :: rest) r = Some u).
  { intros r. unfold quoteForRange, segment. destruct (empty r).
    - destruct (includes startChars (sliceDoc st (from r - 1) (from r)));
        cbn [nth_error]; eexists; reflexivity.
    - cbn [nth_error]. eexists; reflexivity. }
  destruct (changeByRange_defined _ (ranges st) Hdef) as (us & Hus & Hn).
  rewrite Hus. exists us. split; [reflexivity|].
  split; [now apply changeByRange_length in Hus|].
  intros i r u Hr Hu. rewrite (Hn i r Hr) in Hu. now apply quoteForRange_span in Hu.
Qed.

Lemma handleQuote_with_separator_witness :
  exists us,
    handleQuote squote noSeparator = Some (true, Some us)
    /\ List.length us = 2%nat
    /\ forall i r u, nth_error (ranges noSeparator) i = Some r ->
                     nth_error us i = Some u ->
                     cfrom (changes u) = from r /\ cto (changes u) = to r.
Proof.
  apply (handleQuote_with_separator squote noSeparator).
  - reflexivity.
  - vm_compute. tauto.
Defined.

(** X14.  When the configured string of the pair has no separator, there is
    a start glyph only.  The quote handler then raises an exception exactly
    when the selection has a range that needs the end glyph: a selection that
    is not empty, or a cursor behind a character that does not open a
    quote. *)
Theorem handleQuote_raises_iff (quote : jsstring) (st : EditorState) :
  active (autocorrect st) = true ->
  ~ In ellipsis (pairFor quote st) ->
  (handleQuote quote st = None
   <-> exists r, In r (ranges st)
                 /\ (empty r = false
                     \/ includes startChars (charBefore st r) = false)).
Proof.
  intros Ha Hno. unfold handleQuote. rewrite Ha. cbn [negb]. cbv zeta.
  rewrite quotesFor_split, split_no_sep by assumption.
  set (q := pairFor quote st).
  assert (Hone : forall r, quoteForRange st [q] r = None
                           <-> empty r = false
                               \/ includes startChars (charBefore st r) = false).
  { intros r. unfold quoteForRange, segment, charBefore. destruct (empty r).
    - destruct (includes startChars (sliceDoc st (from r - 1) (from r)));
        cbn [nth_error]; split; try discriminate; try tauto.
      intros [H|H]; discriminate.
    - cbn [nth_error]. split; auto. }
  destruct (changeByRange (quoteForRange st [q]) (ranges st)) as [us|] eqn:Ec.
  - split; [discriminate|]. intros (r & Hr & H).
    assert (Hn : changeByRange (quoteForRange st [q]) (ranges st) = None).
    { apply changeByRange_None. exists r. split; [assumption | now apply Hone]. }
    congruence.
  - split; [|reflexivity]. intros _.
    apply changeByRange_None in Ec as (r & Hr & H). exists r.
    split; [assumption | now apply Hone].
Qed.

Lemma handleQuote_raises_iff_witness :
  handleQuote dquote noSeparator = None
  <-> exists r, In r (ranges noSeparator)
                /\ (empty r = false
                    \/ includes startChars (charBefore noSeparator r) = false).
Proof.
  apply (handleQuote_raises_iff dquote noSeparator).
  - reflexivity.
  - vm_compute. intros [H|[]]. discriminate.
Defined.

(** X15.  A line break does not open a quote: for a cursor at the start of
    a line other than the first, the quote key inserts the end glyph. *)
Theorem handleQuote_after_line_break (quote : jsstring) (st : EditorState)
    (start end_ : jsstring) (i : nat) (c : SelectionRange) :
  active (autocorrect st) = true ->
  quotesFor quote st = [start; end_] ->
  nth_error (ranges st) i = Some c ->
  empty c = true ->
  0 < from c <= len (doc st) ->
  nth_error (doc st) (Z.to_nat (from c - 1)) = Some lineBreak ->
  exists us,
    handleQuote quote st = Some (true, Some us)
    /\ nth_error us i =
         Some (mkUpdate (cursor (from c + len end_)) (mkChange (from c) (from c) end_)).
Proof.
  intros Ha Hq Hi He Hc Hb. unfold handleQuote. rewrite Ha, Hq. cbn [negb]. cbv zeta.
  destruct (changeByRange_defined (quoteForRange st [start; end_]) (ranges st)
              (quoteForRange_defined st start end_)) as (us & Hus & Hn).
  rewrite Hus. exists us. split; [reflexivity|].
  rewrite (Hn i c Hi), quoteForRange_cursor by (assumption || lia).
  unfold glyphAt, precedingChar.
  destruct (Z.eqb_spec (from c) 0); [lia|]. rewrite Hb. reflexivity.
Qed.

Lemma handleQuote_after_line_break_witness :
  exists us,
    handleQuote dquote secondLine = Some (true, Some us)
    /\ nth_error us 0 = Some (mkUpdate (cursor 3) (mkChange 2 2 [8221%N])).
Proof.
  apply (handleQuote_after_line_break dquote secondLine [8220%N] [8221%N] 0 (cursor 2)).
  - reflexivity.
  - reflexivity.
  - reflexivity.
  - reflexivity.
  - vm_compute. split; [reflexivity | discriminate].
  - reflexivity.
Defined.

Lemma sliceString_middle (a x b : jsstring) :
  sliceString (a ++ x ++ b) (len a) (len a + len x) = x.
Proof.
  unfold sliceString. cbv zeta. rewrite !len_app.
  pose proof (len_nonneg a). pose proof (len_nonneg x). pose proof (len_nonneg b).
  replace (Z.max 0 (Z.min (len a + (len x + len b)) (len a))) with (len a) by lia.
  replace (Z.max (len a) (Z.min (len a + (len x + len b)) (len a + len x)))
    with (len a + len x) by lia.
  unfold len.
  replace (Z.to_nat (Z.of_nat (List.length a))) with (List.length a) by lia.
  replace (Z.to_nat (Z.of_nat (List.length a) + Z.of_nat (List.length x)
                     - Z.of_nat (List.length a)))
    with (List.length x) by lia.
  rewrite skipn_app, skipn_all, Nat.sub_diag. simpl.
  rewrite firstn_app, Nat.sub_diag, firstn_all. simpl. apply app_nil_r.
Qed.

(** X16.  The quote key on a selection that is not empty: the change puts
    the start glyph right before the selected text and the end glyph right
    behind it, and the text between them is the selected text.  When both
    glyphs have the same length, the new selection covers exactly that
    text. *)
Theorem handleQuote_wraps (quote : jsstring) (st : EditorState)
    (q0 q1 : jsstring) (i : nat) (r : SelectionRange) :
  active (autocorrect st) = true ->
  quotesFor quote st = [q0; q1] ->
  nth_error (ranges st) i = Some r ->
  0 <= from r < to r -> to r <= len (doc st) ->
  exists us u,
    handleQuote quote st = Some (true, Some us)
    /\ nth_error us i = Some u
    /\ let text := sliceDoc st (from r) (to r) in
       let d' := applyChange (doc st) (changes u) in
       d' = firstn (Z.to_nat (from r)) (doc st) ++ q0 ++ text ++ q1
              ++ skipn (Z.to_nat (to r)) (doc st)
       /\ sliceString d' (from r) (from r + len q0) = q0
       /\ sliceString d' (from r + len q0) (to r + len q0) = text
       /\ sliceString d' (to r + len q0) (to r + len q0 + len q1) = q1
       /\ (len q0 = len q1 ->
           newRange u = mkRange (from r + len q0) (to r + len q0)).
Proof.
  intros Ha Hq Hi Hf Ht. unfold handleQuote. rewrite Ha, Hq. cbn [negb]. cbv zeta.
  destruct (changeByRange_defined (quoteForRange st [q0; q1]) (ranges st)
              (quoteForRange_defined st q0 q1)) as (us & Hus & Hn).
  rewrite Hus.
  assert (He : empty r = false) by (unfold empty; apply Z.eqb_neq; lia).
  exists us. eexists. split; [reflexivity|].
  split; [rewrite (Hn i r Hi); now apply quoteForRange_selection|].
  cbn [changes newRange].
  set (text := sliceDoc st (from r) (to r)).
  set (A := firstn (Z.to_nat (from r)) (doc st)).
  set (B := skipn (Z.to_nat (to r)) (doc st)).
  assert (HA : len A = from r).
  { unfold A, len in *. rewrite length_firstn. lia. }
  assert (HT : len text = to r - from r).
  { unfold text, sliceDoc. apply sliceString_length; lia. }
  assert (Hd : applyChange (doc st) (mkChange (from r) (to r) (q0 ++ text ++ q1))
               = A ++ q0 ++ text ++ q1 ++ B).
  { unfold applyChange. cbn [cfrom cto insert]. fold A B.
    now rewrite <- !app_assoc. }
  rewrite Hd. split; [reflexivity|]. split; [|split; [|split]].
  - rewrite <- HA. apply sliceString_middle.
  - replace (A ++ q0 ++ text ++ q1 ++ B) with ((A ++ q0) ++ text ++ (q1 ++ B))
      by (now rewrite <- !app_assoc).
    replace (from r + len q0) with (len (A ++ q0)) by (rewrite len_app; lia).
    replace (to r + len q0) with (len (A ++ q0) + len text) by (rewrite len_app; lia).
    apply sliceString_middle.
  - replace (A ++ q0 ++ text ++ q1 ++ B) with ((A ++ q0 ++ text) ++ q1 ++ B)
      by (now rewrite <- !app_assoc).
    replace (to r + len q0) with (len (A ++ q0 ++ text))
      by (rewrite !len_app; lia).
    apply sliceString_middle.
  - intros Hl. apply wrapped_range_equal_glyphs; [lia | assumption].
Qed.

Lemma handleQuote_wraps_witness :
  exists us u,
    handleQuote dquote selectedWord = Some (true, Some us)
    /\ nth_error us 0 = Some u
    /\ let text := sliceDoc selectedWord 1 4 in
       let d' := applyChange (doc selectedWord) (changes u) in
       d' = firstn 1 (doc selectedWord) ++ [8220%N] ++ text ++ [8221%N]
              ++ skipn 4 (doc selectedWord)
       /\ sliceString d' 1 (1 + 1) = [8220%N]
       /\ sliceString d' (1 + 1) (4 + 1) = text
       /\ sliceString d' (4 + 1) (4 + 1 + 1) = [8221%N]
       /\ (1 = 1 -> newRange u = mkRange (1 + 1) (4 + 1)).
Proof.
  apply (handleQuote_wraps dquote selectedWord [8220%N] [8221%N] 0 (mkRange 1 4)).
  - reflexivity.
  - reflexivity.
  - reflexivity.
  - simpl. lia.
  - vm_compute. discriminate.
Defined.
